(** * nepseauth: the token manager of [auth/token.go]

    A shallow embedding of the credential manager: the index derivation
    through the five exported functions of the embedded module, the string
    reconstruction [sliceSkipAt], and the caching [Manager] with its validity
    window.

    Conventions.
    - Go's [int] and [int64] are modelled as [Z]. Where the source converts
      between widths ([uint32(a)], [int32(res[0])]) the wrap-around is written
      out. No other arithmetic of the modelled code can leave the 64-bit
      range: the only additions are [p + 1] with [p < len(b)].
    - A Go [string] holding a token is its byte sequence, [list byte].
    - A run-time panic is an explicit outcome ([None] for the pure
      [sliceSkipAt], [Panic] in the manager's monad). *)

From Stdlib Require Import ZArith List Lia Bool.
From Stdlib Require Import Strings.String Strings.Byte.
From stdpp Require Import base option list sorting strings.

Local Open Scope Z_scope.

(** ** Go values *)

(** A token string, as [[]byte(s)] sees it. *)
Definition gostring := list byte.

(** [len(b)] as a Go [int]. *)
Definition len {A} (b : list A) : Z := Z.of_nat (length b).

(** The slice expression [b[lo:hi]]: a run-time panic ([None]) unless
    [0 <= lo <= hi <= len(b)]. (Go checks [hi] against the capacity; the
    only slices taken below have [hi <= len(b)].) *)
Definition slice {A} (b : list A) (lo hi : Z) : option (list A) :=
  if (0 <=? lo) && (lo <=? hi) && (hi <=? len b)
  then Some (take (Z.to_nat (hi - lo)) (drop (Z.to_nat lo) b))
  else None.

(** ** Token reconstruction: [sliceSkipAt] *)

(** The inner loop of the insertion sort,
    [for j > 0 && ps[j-1] > ps[j] { ps[j-1], ps[j] = ps[j], ps[j-1]; j-- }],
    entered with [j = i]. The loop is only entered with [j < len(ps)], so
    both lookups succeed ([siftDown_in_range] below); the last branch is
    never taken. *)
Fixpoint siftDown (ps : list Z) (j : nat) : list Z :=
  match j with
  | O => ps
  | S j' =>
      match ps !! j', ps !! j with
      | Some a, Some b =>
          if a >? b then siftDown (<[j' := b]> (<[j := a]> ps)) j' else ps
      | _, _ => ps
      end
  end.

(** The outer loop, [for i := 1; i < len(ps); i++]. [siftDown] keeps the
    length, so the range of [i] is fixed on entry. *)
Definition sortPositions (ps : list Z) : list Z :=
  fold_left siftDown (seq 1 (length ps - 1)) ps.

(** The copying loop [for _, p := range ps], with the final
    [out = append(out, b[prev:]...)]. *)
Fixpoint skipLoop (b : gostring) (ps : list Z) (prev : Z) (out : gostring)
  : option gostring :=
  match ps with
  | [] => frag ← slice b prev (len b); Some (out ++ frag)
  | p :: ps' =>
      if (p <? 0) || (p >=? len b) then skipLoop b ps' prev out
      else frag ← slice b prev p; skipLoop b ps' (p + 1) (out ++ frag)
  end.

(** [sliceSkipAt(s, positions...)]; [None] is a run-time panic. *)
Definition sliceSkipAt (s : gostring) (positions : list Z) : option gostring :=
  if (len positions =? 0) then Some s
  else skipLoop s (sortPositions positions) 0 [].

(** The specification's wording of [reconstruct]: the bytes of [s], in their
    original order, whose position is not a listed index. [i] is the position
    of the head of [s]. *)
Fixpoint keep_unlisted (i : Z) (s : gostring) (P : Z -> bool) : gostring :=
  match s with
  | [] => []
  | c :: s' => if P i then keep_unlisted (i + 1) s' P
               else c :: keep_unlisted (i + 1) s' P
  end.

Definition listed (ps : list Z) (i : Z) : bool := existsb (Z.eqb i) ps.

Definition reconstruct_spec (s : gostring) (indices : list Z) : gostring :=
  keep_unlisted 0 s (listed indices).

(** Literals for the examples. *)
Definition bytes (s : string) : gostring := list_byte_of_string s.

(** Insertion of [x] into a descending list: what one pass of [siftDown]
    computes on the reversed sorted prefix ([siftDown_rins]). *)
Fixpoint rins (x : Z) (r : list Z) : list Z :=
  match r with
  | [] => [x]
  | a :: r' => if a >? x then a :: rins x r' else x :: r
  end.

(** ** Errors and outcomes *)

(** Go [error] values: one built by a collaborator, one built by
    [errors.New(msg)], or [fmt.Errorf("<prefix>: %w", inner)]. *)
Inductive error : Type :=
| collaborator_error (what : string)
| errors_New (msg : string)
| fmt_Errorf (prefix : string) (inner : error).

#[global] Instance error_eq_dec : EqDecision error.
Proof. solve_decision. Defined.

(** The chain [errors.Is] walks: the error, then what it wraps. *)
Fixpoint error_chain (e : error) : list error :=
  e :: match e with
       | fmt_Errorf _ inner => error_chain inner
       | _ => []
       end.

Definition errors_Is (e target : error) : Prop := target ∈ error_chain e.

(** What a call can do: return a value, return a non-nil [error], or panic. *)
Inductive result (A : Type) : Type :=
| Ok (a : A)
| Err (e : error)
| Panic (why : string).
Arguments Ok {A} a.
Arguments Err {A} e.
Arguments Panic {A} why.

(** ** Integer conversions of [call5] *)

(** [uint64(uint32(a))]: the low 32 bits. *)
Definition uint32 (a : Z) : Z := a mod 2 ^ 32.

(** [int(int32(r))]: the low 32 bits read as two's complement. *)
Definition int32 (r : Z) : Z :=
  let m := r mod 2 ^ 32 in if m <? 2 ^ 31 then m else m - 2 ^ 32.

(** ** Time *)

(** A [time.Time] is its instant, in nanoseconds since the Unix epoch; a
    [time.Duration] is a count of nanoseconds in an [int64]. *)
Definition Second : Z := 1000000000.

(** The zero [time.Time], January 1 of year 1, 00:00:00 UTC. *)
Definition time_zero : Z := -62135596800 * Second.

Definition IsZero (t : Z) : bool := t =? time_zero.

(** [time.Unix(sec, 0)]. *)
Definition time_Unix (sec : Z) : Z := sec * Second.

Definition minDuration : Z := - 2 ^ 63.
Definition maxDuration : Z := 2 ^ 63 - 1.

(** [t.Sub(u)]: the difference, saturated to the range of [Duration]. *)
Definition time_Sub (t u : Z) : Z :=
  Z.max minDuration (Z.min maxDuration (t - u)).

(** ** Data *)

Record TokenResponse : Type := {
  Salt1 : Z; Salt2 : Z; Salt3 : Z; Salt4 : Z; Salt5 : Z;
  tr_AccessToken : gostring;
  tr_RefreshToken : gostring;
  ServerTime : Z (* ms since epoch *)
}.

(** [[5]int]. *)
Abbreviation salts5 := (Z * Z * Z * Z * Z)%type.

(** The credential fields of [Manager], and [maxUpdatePeriod]. The fields
    [http] and [parser] point to the collaborators, whose state is in
    [World]; [mu] and [sf] have no sequential content. *)
Record Manager : Type := {
  accessToken : gostring;
  refreshToken : gostring;
  tokenTS : Z;
  salts : salts5;
  maxUpdatePeriod : Z
}.

Record tokenIndices : Type := {
  access : list Z;  (* n, l, o, p, q *)
  refresh : list Z  (* a, b, c, d, e *)
}.

(** ** Collaborators *)

(** The port [NepseHTTP] over the collaborator's state [H]. [GetTokens]
    returns a non-nil error ([inl]) or a pointer, which may be nil ([None]). *)
Class NepseHTTP (H : Type) : Type := {
  GetTokens : H -> (error + option TokenResponse) * H;
  RefreshTokens : gostring -> H -> (error + option TokenResponse) * H
}.

(** The five exports that [newTokenParser] looks up by name. *)
Inductive export : Type := cdx | rdx | bdx | ndx | mdx.

#[global] Instance export_eq_dec : EqDecision export.
Proof. solve_decision. Defined.

(** The instantiated module, with state [W]. [Call f a b c d e] is
    [f.Call(ctx, a, b, c, d, e)] on five [uint64] slots: an error, or the
    first result slot [res[0]] (each export returns one [i32]; the module
    [data/css.wasm] itself is not part of the sources). [newTokenParser] is
    the outcome of compiling and instantiating it. *)
Class tokenParser (W : Type) : Type := {
  Call : export -> Z -> Z -> Z -> Z -> Z -> W -> (error + Z) * W;
  newTokenParser : error + W
}.

(** The clock: [time_Now k] is the [k]-th reading taken in a run. *)
Class Clock : Type := { time_Now : nat -> Z }.

(** The state a sequential run threads through: the manager's fields, the
    collaborators' states, the number of clock readings taken so far, and
    two counters kept for the statements only: the [GetTokens] calls issued
    and the updates that replaced the credential state. *)
Record World (H W : Type) : Type := {
  mgr : Manager;
  http : H;
  parser : W;
  ticks : nat;
  fetches : nat;
  updates : nat
}.
Arguments mgr {H W} w.
Arguments http {H W} w.
Arguments parser {H W} w.
Arguments ticks {H W} w.
Arguments fetches {H W} w.
Arguments updates {H W} w.
Arguments Build_World {H W}.

Declare Scope go_scope.
Delimit Scope go_scope with go.

Section Model.
Context {H W : Type} {client : NepseHTTP H} {wasm : tokenParser W} {clock : Clock}.

(** *** The monad of the manager's methods *)

Definition M (A : Type) : Type := World H W -> result A * World H W.

Definition ret {A} (a : A) : M A := fun w => (Ok a, w).
Definition fail {A} (e : error) : M A := fun w => (Err e, w).
Definition panic {A} (why : string) : M A := fun w => (Panic why, w).

Definition bind {A B} (c : M A) (k : A -> M B) : M B := fun w =>
  match c w with
  | (Ok a, w') => k a w'
  | (Err e, w') => (Err e, w')
  | (Panic why, w') => (Panic why, w')
  end.

Notation "x <- c ;; k" := (bind c (fun x => k))
  (at level 100, c at next level, right associativity) : go_scope.
Notation "c ;;; k" := (bind c (fun _ => k))
  (at level 100, right associativity) : go_scope.
Local Open Scope go_scope.

(** Reading and replacing the manager's fields. *)
Definition load : M Manager := fun w => (Ok (mgr w), w).

Definition store (m : Manager) : M unit := fun w =>
  (Ok tt, Build_World m (http w) (parser w) (ticks w) (fetches w) (updates w)).

(** The world after one more reading of the clock. *)
Definition tick (w : World H W) : World H W :=
  Build_World (mgr w) (http w) (parser w) (S (ticks w)) (fetches w) (updates w).

(** [time.Now()]: the next reading of the clock. *)
Definition Now : M Z := fun w => (Ok (time_Now (ticks w)), tick w).

(** [m.http.GetTokens(ctx)], counted. *)
Definition http_GetTokens : M (error + option TokenResponse) := fun w =>
  let '(r, h) := GetTokens (http w) in
  (Ok r, Build_World (mgr w) h (parser w) (ticks w) (S (fetches w)) (updates w)).

Definition count_update : M unit := fun w =>
  (Ok tt, Build_World (mgr w) (http w) (parser w) (ticks w) (fetches w) (S (updates w))).

(** *** Index derivation *)

(** The helper [call5] of [indicesFromSalts]. *)
Definition call5 (f : export) (a b c d e : Z) (p : W) : (error + Z) * W :=
  match Call f (uint32 a) (uint32 b) (uint32 c) (uint32 d) (uint32 e) p with
  | (inl err, p') => (inl err, p')
  | (inr res0, p') => (inr (int32 res0), p')
  end.

(** One [x, err := call5(...); if err != nil { return tokenIndices{}, err }]. *)
Definition andThen {A B} (c : W -> (error + A) * W)
    (k : A -> W -> (error + B) * W) : W -> (error + B) * W := fun p =>
  match c p with
  | (inl err, p') => (inl err, p')
  | (inr a, p') => k a p'
  end.

Definition indicesFromSalts (s : salts5) : W -> (error + tokenIndices) * W :=
  let '(s1, s2, s3, s4, s5) := s in
  andThen (call5 cdx s1 s2 s3 s4 s5) (fun n =>
  andThen (call5 rdx s1 s2 s4 s3 s5) (fun l =>
  andThen (call5 bdx s1 s2 s4 s3 s5) (fun o =>
  andThen (call5 ndx s1 s2 s4 s3 s5) (fun pp =>
  andThen (call5 mdx s1 s2 s4 s3 s5) (fun q =>
  andThen (call5 cdx s2 s1 s3 s5 s4) (fun a =>
  andThen (call5 rdx s2 s1 s3 s4 s5) (fun b =>
  andThen (call5 bdx s2 s1 s4 s3 s5) (fun cc =>
  andThen (call5 ndx s2 s1 s4 s3 s5) (fun d =>
  andThen (call5 mdx s2 s1 s4 s3 s5) (fun e =>
  fun p => (inr {| access := [n; l; o; pp; q];
                   refresh := [a; b; cc; d; e] |}, p))))))))))).

(** [m.parser.indicesFromSalts(salts)] on the parser of the world. *)
Definition parser_indicesFromSalts (s : salts5) : M (error + tokenIndices) :=
  fun w =>
  let '(r, p) := indicesFromSalts s (parser w) in
  (Ok r, Build_World (mgr w) (http w) p (ticks w) (fetches w) (updates w)).

(** [sliceSkipAt] inside a method: a panic propagates. *)
Definition sliceSkipAt_M (s : gostring) (positions : list Z) : M gostring :=
  match sliceSkipAt s positions with
  | Some t => ret t
  | None => panic "slice bounds out of range"
  end.

(** [parseResponse]. On an error the source also returns zero values, which
    its only caller drops; [Err] carries the error alone. *)
Definition parseResponse (tr : TokenResponse)
  : M (gostring * gostring * salts5 * Z) :=
  let salts := (Salt1 tr, Salt2 tr, Salt3 tr, Salt4 tr, Salt5 tr) in
  r <- parser_indicesFromSalts salts ;;
  match r with
  | inl err => fail (fmt_Errorf "wasm parse" err)
  | inr idx =>
      parsedAccess <- sliceSkipAt_M (tr_AccessToken tr) (access idx) ;;
      parsedRefresh <- sliceSkipAt_M (tr_RefreshToken tr) (refresh idx) ;;
      let sec := ServerTime tr ÷ 1000 in
      ret (parsedAccess, parsedRefresh, salts, sec)
  end.

(** *** The manager *)

Definition is_empty (s : gostring) : bool :=
  match s with [] => true | _ => false end.

Definition isValid : M bool :=
  m <- load ;;
  if is_empty (accessToken m) || IsZero (tokenTS m) then ret false
  else
    now <- Now ;;
    ret (time_Sub now (tokenTS m) <? maxUpdatePeriod m).

(** [update]. In a sequential run no call for the key is in flight, so
    [m.sf.Do] runs the function it is given and returns its error. *)
Definition update : M unit :=
  valid <- isValid ;;
  if valid then ret tt
  else
    r <- http_GetTokens ;;
    match r with
    | inl err => fail (fmt_Errorf "get token" err)
    | inr None => panic "nil pointer dereference"
    | inr (Some resp) =>
        parsed <- parseResponse resp ;;
        let '(access, refresh, salts, ts) := parsed in
        m <- load ;;
        stamp <- (if ts >? 0 then ret (time_Unix ts) else Now) ;;
        store {| accessToken := access; refreshToken := refresh;
                 tokenTS := stamp; salts := salts;
                 maxUpdatePeriod := maxUpdatePeriod m |} ;;;
        count_update
    end.

Definition AccessToken : M gostring :=
  valid <- isValid ;;
  if valid then m <- load ;; ret (accessToken m)
  else
    update ;;;
    m <- load ;;
    if is_empty (accessToken m)
    then fail (errors_New "empty access token after update")
    else ret (accessToken m).

Definition RefreshToken : M gostring :=
  valid <- isValid ;;
  if valid then m <- load ;; ret (refreshToken m)
  else
    update ;;;
    m <- load ;;
    if is_empty (refreshToken m)
    then fail (errors_New "empty refresh token after update")
    else ret (refreshToken m).

Definition ForceUpdate : M unit := update.

(** The fields [NewManager] sets; the others are zero values. *)
Definition emptyManager : Manager :=
  {| accessToken := []; refreshToken := []; tokenTS := time_zero;
     salts := (0, 0, 0, 0, 0); maxUpdatePeriod := 45 * Second |}.

(** [NewManager(httpClient)], built when [k] clock readings have been taken. *)
Definition NewManager (httpClient : H) (k : nat) : error + World H W :=
  match newTokenParser with
  | inl err => inl (fmt_Errorf "init wasm parser" err)
  | inr p => inr (Build_World emptyManager httpClient p k 0 0)
  end.

(** The public operations, for runs of several calls. *)
Inductive operation : Type := OpAccessToken | OpRefreshToken | OpForceUpdate.

Definition perform (o : operation) (w : World H W) : World H W :=
  match o with
  | OpAccessToken => snd (AccessToken w)
  | OpRefreshToken => snd (RefreshToken w)
  | OpForceUpdate => snd (ForceUpdate w)
  end.

(** The worlds a manager can be in: as constructed, or after an operation. *)
Inductive reachable : World H W -> Prop :=
| reachable_new httpClient k w :
    NewManager httpClient k = inr w -> reachable w
| reachable_step o w : reachable w -> reachable (perform o w).

(** The specification's wording of freshness: a cached token, a timestamp
    that is set, and [now - obtainedAt] strictly inside the window. *)
Definition fresh (m : Manager) (now : Z) : Prop :=
  accessToken m <> [] /\ tokenTS m <> time_zero /\
  now - tokenTS m < maxUpdatePeriod m.

(** The salts of a response, as [parseResponse] packs them. *)
Definition salts_of (tr : TokenResponse) : salts5 :=
  (Salt1 tr, Salt2 tr, Salt3 tr, Salt4 tr, Salt5 tr).

(** The specification's wording of the call contract: the ten calls, in the
    order of the source, as a table of export and arguments. *)
Definition derivation_calls (s : salts5) : list (export * salts5) :=
  let '(s1, s2, s3, s4, s5) := s in
  [ (cdx, (s1, s2, s3, s4, s5)); (rdx, (s1, s2, s4, s3, s5));
    (bdx, (s1, s2, s4, s3, s5)); (ndx, (s1, s2, s4, s3, s5));
    (mdx, (s1, s2, s4, s3, s5));
    (cdx, (s2, s1, s3, s5, s4)); (rdx, (s2, s1, s3, s4, s5));
    (bdx, (s2, s1, s4, s3, s5)); (ndx, (s2, s1, s4, s3, s5));
    (mdx, (s2, s1, s4, s3, s5)) ].

(** Run a table of calls in order and stop at the first that fails: each
    entry is the named export applied to the low 32 bits of its five
    arguments, and yields the first result slot read as an [int32]. *)
Fixpoint run_calls (cs : list (export * salts5)) (p : W)
  : (error + list Z) * W :=
  match cs with
  | [] => (inr [], p)
  | (f, (a, b, c, d, e)) :: cs' =>
      match Call f (uint32 a) (uint32 b) (uint32 c) (uint32 d) (uint32 e) p with
      | (inl err, p') => (inl err, p')
      | (inr res0, p') =>
          match run_calls cs' p' with
          | (inl err, p'') => (inl err, p'')
          | (inr xs, p'') => (inr (int32 res0 :: xs), p'')
          end
      end
  end.

(** The credential state of [w'] is replaced wholesale from one response:
    the collaborator of [w] answered with [resp], the module of [w] derived
    the indices [idx] from the salts of [resp], and all the fields of the
    manager of [w'] are what [resp] yields under [idx] (the two
    reconstructed tokens, the salts, and the server's second or, when that
    is not positive, the last clock reading taken), the window excepted,
    which is kept; the collaborator and the module are left as that one
    fetch and that one derivation left them. *)
Definition replaced_from_reply (w w' : World H W) : Prop :=
  exists resp h' idx p' a rf stamp,
    GetTokens (http w) = (inr (Some resp), h') /\
    indicesFromSalts (salts_of resp) (parser w) = (inr idx, p') /\
    sliceSkipAt (tr_AccessToken resp) (access idx) = Some a /\
    sliceSkipAt (tr_RefreshToken resp) (refresh idx) = Some rf /\
    (if ServerTime resp ÷ 1000 >? 0
     then stamp = time_Unix (ServerTime resp ÷ 1000)
     else exists k, (ticks w <= k)%nat /\ ticks w' = S k /\
                    stamp = time_Now k) /\
    mgr w' = {| accessToken := a; refreshToken := rf; tokenTS := stamp;
                salts := salts_of resp;
                maxUpdatePeriod := maxUpdatePeriod (mgr w) |} /\
    http w' = h' /\ parser w' = p' /\
    fetches w' = S (fetches w) /\ updates w' = S (updates w).

(** One step on the credential state: it is left as it was, or all of its
    fields are replaced together from the one response fetched. *)
Definition wholesale_step (w w' : World H W) : Prop :=
  (mgr w' = mgr w /\ updates w' = updates w) \/ replaced_from_reply w w'.

(** What one call of [update] can do: nothing, because the state is valid
    on the re-check; fail after its fetch, leaving the credential state as it
    was; or replace the credential state from the response it fetched. *)
Inductive update_spec (w : World H W) : result unit -> World H W -> Prop :=
| update_skipped :
    isValid w = (Ok true, tick w) ->
    update_spec w (Ok tt) (tick w)
| update_failed w1 r w' :
    isValid w = (Ok false, w1) ->
    r <> Ok tt ->
    mgr w' = mgr w -> fetches w' = S (fetches w) -> updates w' = updates w ->
    update_spec w r w'
| update_stored w1 resp h' idx p' a rf stamp k w' :
    isValid w = (Ok false, w1) ->
    GetTokens (http w) = (inr (Some resp), h') ->
    indicesFromSalts (salts_of resp) (parser w) = (inr idx, p') ->
    sliceSkipAt (tr_AccessToken resp) (access idx) = Some a ->
    sliceSkipAt (tr_RefreshToken resp) (refresh idx) = Some rf ->
    (if ServerTime resp ÷ 1000 >? 0
     then stamp = time_Unix (ServerTime resp ÷ 1000) /\ k = ticks w1
     else stamp = time_Now (ticks w1) /\ k = S (ticks w1)) ->
    w' = Build_World
           {| accessToken := a; refreshToken := rf; tokenTS := stamp;
              salts := salts_of resp; maxUpdatePeriod := maxUpdatePeriod (mgr w) |}
           h' p' k (S (fetches w)) (S (updates w)) ->
    update_spec w (Ok tt) w'.

End Model.


(** The world after a fetch that left the collaborator in state [h]. *)
Definition after_fetch {H W : Type} (w : World H W) (h : H) : World H W :=
  Build_World (mgr w) h (parser w) (ticks w) (S (fetches w)) (updates w).

(** ** A test double

    A stub collaborator, a stub module and a simulated clock, as a test of
    the manager would set them up. *)
Module Stub.

(** The HTTP collaborator replays a queue of canned replies. *)
Definition replies : Type := list (error + option TokenResponse).

Definition next_reply (h : replies) : (error + option TokenResponse) * replies :=
  match h with
  | [] => (inl (collaborator_error "no reply left"), [])
  | r :: h' => (r, h')
  end.

Definition stubHTTP : NepseHTTP replies :=
  {| GetTokens := next_reply; RefreshTokens := fun _ => next_reply |}.

(** The module returns fixed indices: 1, 3, 5, 7 and -1 (as an [i32]); the
    exports selected by [trap] fail instead. *)
Definition trapped (f : export) : error :=
  collaborator_error
    match f with
    | cdx => "cdx trapped" | rdx => "rdx trapped" | bdx => "bdx trapped"
    | ndx => "ndx trapped" | mdx => "mdx trapped"
    end.

Definition parserWith (trap : export -> bool) : tokenParser unit :=
  {| Call := fun f _ _ _ _ _ p =>
       (if trap f then inl (trapped f)
        else inr match f with
                 | cdx => 1 | rdx => 3 | bdx => 5 | ndx => 7 | mdx => 4294967295
                 end, p);
     newTokenParser := inr tt |}.

Definition stubParser : tokenParser unit := parserWith (fun _ => false).

(** A module whose exports echo what they were called with: a digit for
    the export, then the five arguments as decimal digits. *)
Definition echoParser : tokenParser unit :=
  {| Call := fun f a b c d e p =>
       (inr (match f with
             | cdx => 1 | rdx => 2 | bdx => 3 | ndx => 4 | mdx => 5
             end * 100000 + a * 10000 + b * 1000 + c * 100 + d * 10 + e), p);
     newTokenParser := inr tt |}.

(** The clock starts at 1700000000 s and advances 20 s per reading. *)
Definition stubClock : Clock :=
  {| time_Now := fun k => (1700000000 + 20 * Z.of_nat k) * Second |}.

Definition bundle (raw_access raw_refresh : string) (ms : Z) : TokenResponse :=
  {| Salt1 := 1; Salt2 := 2; Salt3 := 3; Salt4 := 4; Salt5 := 5;
     tr_AccessToken := bytes raw_access;
     tr_RefreshToken := bytes raw_refresh;
     ServerTime := ms |}.

(** A manager as [NewManager] builds it, over the given replies. *)
Definition world0 (h : replies) : World replies unit :=
  Build_World emptyManager h tt 0 0 0.

(** The manager's methods over the test double. *)
Definition runAccessToken : World replies unit -> result gostring * World replies unit :=
  @AccessToken _ _ stubHTTP stubParser stubClock.
Definition runRefreshToken : World replies unit -> result gostring * World replies unit :=
  @RefreshToken _ _ stubHTTP stubParser stubClock.
Definition runForceUpdate : World replies unit -> result unit * World replies unit :=
  @ForceUpdate _ _ stubHTTP stubParser stubClock.

(** Two replies of the token endpoint. *)
Definition reply1 : error + option TokenResponse :=
  inr (Some (bundle "abcdefgh" "" 1700000000000)).
Definition reply2 : error + option TokenResponse :=
  inr (Some (bundle "ABCDEFGHIJ" "xyz" 1700000030000)).

End Stub.

(** A module whose five exports all return the same index, 2. *)
Module StubRepeat.

Definition repeatingParser : tokenParser unit :=
  {| Call := fun _ _ _ _ _ _ p => (inr 2, p); newTokenParser := inr tt |}.

Definition runForceUpdate
  : World Stub.replies unit -> result unit * World Stub.replies unit :=
  @ForceUpdate _ _ Stub.stubHTTP repeatingParser Stub.stubClock.

End StubRepeat.

(** ** Requests, responses and headers ([net/http]) *)

#[global] Instance byte_eq_decision : EqDecision byte := Byte.byte_eq_dec.

(** An [http.Header]: the values stored under each key. *)
Definition Header : Type := gostring -> option (list gostring).

Record Request : Type := {
  Method : gostring;
  URL : gostring;
  req_Header : Header
}.

Record Response : Type := {
  StatusCode : Z;
  Status : gostring;
  Body : gostring
}.

(** What the modelled code uses of the standard library, over the state [N]
    of the network behind the [http.Client]: [textproto]'s
    [CanonicalMIMEHeaderKey]; whether [http.NewRequestWithContext] rejects a
    method and URL; [client.Do]; closing a response body;
    [strings.Replace(s, old, new, 1)]; and [json] decoding of a body. *)
Class NetHTTP (N : Type) : Type := {
  CanonicalMIMEHeaderKey : gostring -> gostring;
  http_NewRequest : gostring -> gostring -> option error;
  client_Do : Request -> N -> (error + Response) * N;
  Body_Close : Response -> N -> N;
  strings_Replace1 : gostring -> gostring -> gostring -> gostring;
  json_DecodeTokenResponse : gostring -> error + TokenResponse
}.

Section Headers.
Context {N : Type} {net : NetHTTP N}.

(** [h.Set(key, value)]: one value under the canonical key. *)
Definition Header_Set (key value : gostring) (h : Header) : Header :=
  fun k => if decide (k = CanonicalMIMEHeaderKey key) then Some [value] else h k.


(** [req.Header.Set(key, value)]. *)
Definition set_header (key value : gostring) (req : Request) : Request :=
  {| Method := Method req; URL := URL req;
     req_Header := Header_Set key value (req_Header req) |}.

(** [auth.AuthHeader(req, token)]. *)
Definition AuthHeader (req : Request) (token : gostring) : Request :=
  set_header (bytes "Authorization") (bytes "Salter " ++ token) req.

End Headers.

(** ** The HTTP client of [nepse/http_client.go] *)
Module nepse.

(** The fields of [Options] and [Config] that the modelled methods read. *)
Record Options : Type := { MaxRetries : Z; RetryDelay : Z }.
Record Config : Type := {
  BaseURL : gostring;
  Headers : list (gostring * gostring) (* in the order [range] visits them *)
}.

(** The error constructors and the helper [minDuration] of the package,
    whose files are not part of the sources. [MapHTTPStatusToError] returns
    a [*NepseError], on which [IsRetryable] is defined. *)
Class Errors : Type := {
  NewInternalError : string -> error -> error;
  NewNetworkError : error -> error;
  MapHTTPStatusToError : Z -> gostring -> error;
  IsRetryable : error -> bool;
  minDuration : Z -> Z -> Z
}.

Definition StatusOK : Z := 200.
Definition StatusUnauthorized : Z := 401.
Definition StatusTooManyRequests : Z := 429.

(** Two's-complement wrap-around of an [int64]. *)
Definition wrap64 (x : Z) : Z :=
  let m := x mod 2 ^ 64 in if m <? 2 ^ 63 then m else m - 2 ^ 64.

(** The network, with two logs kept for the statements: the durations
    passed to [time.Sleep] and the requests handed to [client.Do]. *)
Record State (N : Type) : Type := {
  network : N;
  slept : list Z;
  sent : list Request
}.
Arguments network {N} s.
Arguments slept {N} s.
Arguments sent {N} s.
Arguments Build_State {N}.

Section HTTPClient.
Context {N : Type} {net : NetHTTP N} {errs : Errors}.
Variable config : Config.
Variable options : Options.

Definition Sleep (d : Z) (c : State N) : State N :=
  Build_State (network c) (slept c ++ [d]) (sent c).

Definition Do (req : Request) (c : State N) : (error + Response) * State N :=
  let '(r, n) := client_Do req (network c) in
  (r, Build_State n (slept c) (sent c ++ [req])).

Definition Close (resp : Response) (c : State N) : State N :=
  Build_State (Body_Close resp (network c)) (slept c) (sent c).

(** [minDuration(RetryDelay*time.Duration(1<<uint(attempt-1)), 30*time.Second)]. *)
Definition backoff (attempt : Z) : Z :=
  minDuration (wrap64 (RetryDelay options * wrap64 (2 ^ (attempt - 1))))
              (30 * Second).

(** The loop of [doRequest], with [n] iterations left; the result is the
    pair [(resp, err)] that the Go function returns. *)
Fixpoint doRequest_loop (n : nat) (attempt : Z) (lastErr : option error)
    (req : Request) (c : State N) : (option Response * option error) * State N :=
  match n with
  | O => ((None, lastErr), c)
  | S n' =>
      let c1 := if attempt >? 0 then Sleep (backoff attempt) c else c in
      match Do req c1 with
      | (inl err, c2) =>
          doRequest_loop n' (attempt + 1) (Some (NewNetworkError err)) req c2
      | (inr resp, c2) =>
          if (StatusCode resp >=? 500) || (StatusCode resp =? StatusTooManyRequests)
          then
            let c3 := Close resp c2 in
            let e := MapHTTPStatusToError (StatusCode resp) (Status resp) in
            if negb (IsRetryable e) then ((None, Some e), c3)
            else doRequest_loop n' (attempt + 1) (Some e) req c3
          else ((Some resp, None), c2)
      end
  end.

(** [doRequest]: [attempt] runs from 0 to [MaxRetries]. (For
    [MaxRetries = 2^63 - 1] the Go loop condition never fails; the model
    stops after 2^63 iterations.) *)
Definition doRequest (req : Request) (c : State N)
  : (option Response * option error) * State N :=
  doRequest_loop (Z.to_nat (MaxRetries options + 1)) 0 None req c.

Definition quote : gostring := [Byte.x22].

(** [setCommonHeaders]. *)
Definition setCommonHeaders (req : Request) : Request :=
  let req :=
    fold_left
      (fun r kv =>
         let '(key, value) := kv in
         if decide (key = bytes "Host")
         then set_header key (strings_Replace1 (BaseURL config) (bytes "https://") []) r
         else if decide (key = bytes "Referer")
         then set_header key (BaseURL config ++ bytes "/") r
         else if negb (is_empty value) then set_header key value r
         else r)
      (Headers config) req in
  let req := set_header (bytes "Sec-Ch-Ua")
               (quote ++ bytes "Not_A Brand" ++ quote ++ bytes ";v=" ++ quote
                ++ bytes "8" ++ quote ++ bytes ", " ++ quote ++ bytes "Chromium"
                ++ quote ++ bytes ";v=" ++ quote ++ bytes "120" ++ quote
                ++ bytes ", " ++ quote ++ bytes "Google Chrome" ++ quote
                ++ bytes ";v=" ++ quote ++ bytes "120" ++ quote) req in
  let req := set_header (bytes "Sec-Ch-Ua-Mobile") (bytes "?0") req in
  let req := set_header (bytes "Sec-Ch-Ua-Platform")
               (quote ++ bytes "Linux" ++ quote) req in
  let req := set_header (bytes "Sec-Fetch-Dest") (bytes "empty") req in
  let req := set_header (bytes "Sec-Fetch-Mode") (bytes "cors") req in
  let req := set_header (bytes "Sec-Fetch-Site") (bytes "same-origin") req in
  set_header (bytes "Origin") (BaseURL config) req.

(** A request as [http.NewRequestWithContext] returns it: no header yet. *)
Definition newRequest (method url : gostring) : Request :=
  {| Method := method; URL := url; req_Header := fun _ => None |}.

(** The method [GetTokens] of [HTTPClient]. [Ok tr] is [(&tr, nil)] and [Err e] is
    [(nil, e)]. The deferred [resp.Body.Close()] and [body.Close()] (the
    same body, as [getResponseBody] returns [resp.Body]) run on return. *)
Definition GetTokens (c : State N) : result TokenResponse * State N :=
  let url := BaseURL config ++ bytes "/api/authenticate/prove" in
  match http_NewRequest (bytes "GET") url with
  | Some err => (Err (NewInternalError "failed to create request" err), c)
  | None =>
      let req := setCommonHeaders (newRequest (bytes "GET") url) in
      match doRequest req c with
      | ((_, Some err), c1) => (Err err, c1)
      | ((None, None), c1) => (Panic "nil pointer dereference", c1)
      | ((Some resp, None), c1) =>
          if negb (StatusCode resp =? StatusOK)
          then (Err (MapHTTPStatusToError (StatusCode resp) (Status resp)),
                Close resp c1)
          else
            match json_DecodeTokenResponse (Body resp) with
            | inl err =>
                (Err (NewInternalError "failed to decode token response" err),
                 Close resp (Close resp c1))
            | inr tr => (Ok tr, Close resp (Close resp c1))
            end
      end
  end.

End HTTPClient.

Section API.
Context {N W T : Type} {net : NetHTTP N} {errs : Errors}
        {wasm : tokenParser W} {clock : Clock}.
(** [json.NewDecoder(body).Decode(result)] for the caller's result type. *)
Variable json_Decode : gostring -> error + T.
Variable config : Config.
Variable options : Options.

(** The method [RefreshTokens] of [HTTPClient]. *)
Definition RefreshTokens (refreshToken : gostring) (c : State N)
  : result TokenResponse * State N :=
  let url := BaseURL config ++ bytes "/api/authenticate/refresh-token" in
  match http_NewRequest (bytes "GET") url with
  | Some err => (Err (NewInternalError "failed to create request" err), c)
  | None =>
      let req :=
        setCommonHeaders config
          (set_header (bytes "Authorization") (bytes "Salter " ++ refreshToken)
             (newRequest (bytes "GET") url)) in
      match doRequest options req c with
      | ((_, Some err), c1) => (Err err, c1)
      | ((None, None), c1) => (Panic "nil pointer dereference", c1)
      | ((Some resp, None), c1) =>
          if negb (StatusCode resp =? StatusOK)
          then (Err (MapHTTPStatusToError (StatusCode resp) (Status resp)),
                Close resp c1)
          else
            match json_DecodeTokenResponse (Body resp) with
            | inl err =>
                (Err (NewInternalError "failed to decode token response" err),
                 Close resp (Close resp c1))
            | inr tr => (Ok tr, Close resp (Close resp c1))
            end
      end
  end.

(** The client as the collaborator of its own auth manager
    ([NewHTTPClient] passes the client to [auth.NewManager]). The only panic
    of the two methods is the nil dereference after [doRequest] returned
    [(nil, nil)]; it unwinds through [update], and is rendered here as the
    nil response on which [update] panics at once with the same message. *)
Definition as_port (r : result TokenResponse * State N)
  : (error + option TokenResponse) * State N :=
  match r with
  | (Ok tr, c) => (inr (Some tr), c)
  | (Err e, c) => (inl e, c)
  | (Panic _, c) => (inr None, c)
  end.

Definition port : NepseHTTP (State N) :=
  Build_NepseHTTP (State N)
    (fun c => as_port (GetTokens config options c))
    (fun t c => as_port (RefreshTokens t c)).

(** The world of a client: its auth manager, whose collaborator state is
    the client's own network state. *)
Definition with_http (w : World (State N) W) (c : State N) : World (State N) W :=
  Build_World (mgr w) c (parser w) (ticks w) (fetches w) (updates w).

(** The body of [apiRequestWithRetry], its recursive call being [retry].
    [Some (Ok v)] is a nil error with [v] decoded into [result]. The deferred
    [Close] calls run on every return after [doRequest], also when the call
    panics. *)
Definition apiRequest_body
    (retry : gostring -> Z -> World (State N) W
             -> option (result T) * World (State N) W)
    (endpoint : gostring) (retryCount : Z) (w : World (State N) W)
  : option (result T) * World (State N) W :=
  match AccessToken (client := port) w with
  | (Err err, w1) =>
      (Some (Err (NewInternalError "failed to get access token" err)), w1)
  | (Panic why, w1) => (Some (Panic why), w1)
  | (Ok token, w1) =>
      let url := BaseURL config ++ endpoint in
      match http_NewRequest (bytes "GET") url with
      | Some err =>
          (Some (Err (NewInternalError "failed to create request" err)), w1)
      | None =>
          let req :=
            setCommonHeaders config
              (set_header (bytes "Content-Type") (bytes "application/json")
                 (AuthHeader (newRequest (bytes "GET") url) token)) in
          match doRequest options req (http w1) with
          | ((_, Some err), c) => (Some (Err err), with_http w1 c)
          | ((None, None), c) =>
              (Some (Panic "nil pointer dereference"), with_http w1 c)
          | ((Some resp, None), c) =>
              let w2 := with_http w1 c in
              if (StatusCode resp =? StatusUnauthorized) && (retryCount =? 0)
              then
                match ForceUpdate (client := port) w2 with
                | (Err err, w3) =>
                    (Some (Err (NewInternalError "failed to refresh token" err)),
                     with_http w3 (Close resp (http w3)))
                | (Panic why, w3) =>
                    (Some (Panic why), with_http w3 (Close resp (http w3)))
                | (Ok _, w3) =>
                    let '(r, w4) := retry endpoint (retryCount + 1) w3 in
                    (r, with_http w4 (Close resp (http w4)))
                end
              else if negb (StatusCode resp =? StatusOK)
              then
                (Some (Err (MapHTTPStatusToError (StatusCode resp) (Status resp))),
                 with_http w2 (Close resp c))
              else
                match json_Decode (Body resp) with
                | inl err =>
                    (Some (Err (NewInternalError "failed to decode response" err)),
                     with_http w2 (Close resp (Close resp c)))
                | inr v =>
                    (Some (Ok v), with_http w2 (Close resp (Close resp c)))
                end
          end
      end
  end.

(** [apiRequestWithRetry]. The recursion is bounded by [fuel]; [None] means
    that the bound was reached. *)
Fixpoint apiRequestWithRetry (fuel : nat) (endpoint : gostring) (retryCount : Z)
    (w : World (State N) W) : option (result T) * World (State N) W :=
  match fuel with
  | O => (None, w)
  | S fuel' => apiRequest_body (apiRequestWithRetry fuel') endpoint retryCount w
  end.

(** [apiRequest]: [apiRequestWithRetry] with [retryCount = 0]. Two levels of
    the recursion are all it can take. *)
Definition apiRequest (endpoint : gostring) (w : World (State N) W)
  : option (result T) * World (State N) W :=
  apiRequestWithRetry 2 endpoint 0 w.

End API.

End nepse.

(** A status that [doRequest] returns instead of retrying. *)
Definition final_status (resp : Response) : Prop :=
  StatusCode resp < 500 /\ StatusCode resp <> nepse.StatusTooManyRequests.

(** The request that [apiRequestWithRetry] builds for a token. *)
Definition api_request {N : Type} {net : NetHTTP N} (config : nepse.Config)
    (endpoint token : gostring) : Request :=
  nepse.setCommonHeaders config
    (set_header (bytes "Content-Type") (bytes "application/json")
       (AuthHeader (nepse.newRequest (bytes "GET")
                      (nepse.BaseURL config ++ endpoint)) token)).


(** ** A test double for the network *)
Module StubNet.

(** The network replays a queue of canned answers. *)
Definition wire : Type := list (error + Response).

Definition next (n : wire) : (error + Response) * wire :=
  match n with
  | [] => (inl (collaborator_error "connection refused"), [])
  | r :: n' => (r, n')
  end.

(** [strings.Replace(s, old, new, 1)] where [old] can only be a prefix. *)
Definition replacePrefix (s old new : gostring) : gostring :=
  if decide (take (length old) s = old) then new ++ drop (length old) s else s.

Definition stubNet : NetHTTP wire :=
  {| CanonicalMIMEHeaderKey := fun key => key;
     http_NewRequest := fun _ _ => None;
     client_Do := fun _ n => next n;
     Body_Close := fun _ n => n;
     strings_Replace1 := replacePrefix;
     json_DecodeTokenResponse := fun body =>
       if decide (body = bytes "bundle")
       then inr (Stub.bundle "abcdefgh" "xyz" 1700000000000)
       else inl (collaborator_error "invalid JSON") |}.

Definition stubErrors : nepse.Errors :=
  {| nepse.NewInternalError := fmt_Errorf;
     nepse.NewNetworkError := fmt_Errorf "network error";
     nepse.MapHTTPStatusToError := fun _ status =>
       collaborator_error (string_of_list_byte status);
     nepse.IsRetryable := fun _ => true;
     nepse.minDuration := Z.min |}.

Definition config : nepse.Config :=
  {| nepse.BaseURL := bytes "https://example.test";
     nepse.Headers := [(bytes "Host", []); (bytes "Accept", bytes "*/*")] |}.

Definition options (retries : Z) : nepse.Options :=
  {| nepse.MaxRetries := retries; nepse.RetryDelay := Second |}.

Definition answer (code : Z) (status body : string) : error + Response :=
  inr {| StatusCode := code; Status := bytes status; Body := bytes body |}.

Definition decodeWord (body : gostring) : error + gostring :=
  if is_empty body then inl (collaborator_error "EOF") else inr body.

(** A client whose manager holds a token cached at 1700000000 s. *)
Definition cached (n : wire) : World (nepse.State wire) unit :=
  Build_World
    {| accessToken := bytes "aceg"; refreshToken := bytes "xz";
       tokenTS := time_Unix 1700000000; salts := (1, 2, 3, 4, 5);
       maxUpdatePeriod := 45 * Second |}
    (nepse.Build_State n [] []) tt 0 1 1.

Definition runApiRequest (fuel : nat) (endpoint : string)
    (w : World (nepse.State wire) unit)
  : option (result gostring) * World (nepse.State wire) unit :=
  @nepse.apiRequestWithRetry wire unit gostring stubNet stubErrors
    Stub.stubParser Stub.stubClock decodeWord config (options 0)
    fuel (bytes endpoint) 0 w.

End StubNet.

(* ================================================================== *)
(** * Theorems *)

(** ** The insertion sort *)

Lemma siftDown_length ps j : length (siftDown ps j) = length ps.
Proof.
  revert ps; induction j as [|j IH]; intros ps; simpl; [done|].
  destruct (ps !! j) as [a|]; [|done].
  destruct (ps !! S j) as [b|]; [|done].
  destruct (a >? b); [|done].
  rewrite IH, !length_insert. done.
Qed.

Lemma siftDown_in_range (ps : list Z) j :
  (0 < j < length ps)%nat -> is_Some (ps !! (j - 1)%nat) ∧ is_Some (ps !! j).
Proof. intros Hj. split; apply lookup_lt_is_Some; lia. Qed.

Lemma siftDown_rins r x rest :
  siftDown (rev r ++ x :: rest) (length r) = rev (rins x r) ++ rest.
Proof.
  revert x rest; induction r as [|a r IH]; intros x rest; [done|].
  cbn [length siftDown rev rins].
  assert (Hlen : length (rev r) = length r) by apply length_rev.
  rewrite <- (app_assoc (rev r) [a]). cbn [app].
  replace ((rev r ++ a :: x :: rest) !! length r) with (Some a)
    by (symmetry; rewrite <- Hlen; apply list_lookup_middle; done).
  replace ((rev r ++ a :: x :: rest) !! S (length r)) with (Some x).
  2:{ symmetry. change (a :: x :: rest) with ([a] ++ x :: rest).
      rewrite app_assoc. apply list_lookup_middle.
      rewrite length_app, Hlen. simpl. lia. }
  destruct (a >? x) eqn:Hax.
  - assert (Hswap : <[length r := x]> (<[S (length r) := a]> (rev r ++ a :: x :: rest))
                    = rev r ++ x :: a :: rest).
    { rewrite <- Hlen.
      rewrite (insert_app_r_alt (rev r) _ (S (length (rev r)))) by lia.
      replace (S (length (rev r)) - length (rev r))%nat with 1%nat by lia.
      cbn [insert list_insert].
      rewrite (insert_app_r_alt (rev r) _ (length (rev r))) by lia.
      replace (length (rev r) - length (rev r))%nat with 0%nat by lia.
      done. }
    rewrite Hswap, IH. cbn [rev]. rewrite <- app_assoc. done.
  - cbn [rev]. rewrite <- !app_assoc. done.
Qed.

Lemma rins_length x r : length (rins x r) = S (length r).
Proof. induction r as [|a r IH]; simpl; [done|]. destruct (a >? x); simpl; lia. Qed.

Lemma rins_perm x r : rins x r ≡ₚ x :: r.
Proof.
  induction r as [|a r IH]; simpl; [done|].
  destruct (a >? x); [|done]. rewrite IH. apply Permutation_swap.
Qed.

Lemma rins_sorted x r :
  StronglySorted (flip Z.le) r -> StronglySorted (flip Z.le) (rins x r).
Proof.
  induction 1 as [|a r Hr IH Ha]; simpl.
  - repeat constructor.
  - destruct (a >? x) eqn:Hax.
    + constructor; [done|]. rewrite rins_perm. constructor; [|done].
      unfold flip. lia.
    + constructor; [by constructor|]. constructor; [unfold flip; lia|].
      eapply Forall_impl; [exact Ha|]. unfold flip. intros; lia.
Qed.

Lemma sortLoop_rins rest : forall r,
  fold_left siftDown (seq (length r) (length rest)) (rev r ++ rest)
  = rev (fold_left (fun acc x => rins x acc) rest r).
Proof.
  induction rest as [|x rest IH]; intros r; simpl.
  - by rewrite app_nil_r.
  - rewrite siftDown_rins. rewrite <- (rins_length x r). apply IH.
Qed.

Lemma fold_rins_perm rest : forall r,
  fold_left (fun acc x => rins x acc) rest r ≡ₚ r ++ rest.
Proof.
  induction rest as [|x rest IH]; intros r; simpl.
  - by rewrite app_nil_r.
  - rewrite IH, rins_perm. simpl. apply Permutation_middle.
Qed.

Lemma fold_rins_sorted rest : forall r,
  StronglySorted (flip Z.le) r ->
  StronglySorted (flip Z.le) (fold_left (fun acc x => rins x acc) rest r).
Proof.
  induction rest as [|x rest IH]; intros r Hr; simpl; [done|].
  by apply IH, rins_sorted.
Qed.

Lemma StronglySorted_rev_flip (l : list Z) :
  StronglySorted (flip Z.le) l -> StronglySorted Z.le (rev l).
Proof.
  induction 1 as [|a l Hl IH Ha]; simpl; [constructor|].
  apply StronglySorted_app. split_and!; [|done|repeat constructor].
  intros x1 x2 Hx1 Hx2. apply list_elem_of_singleton in Hx2 as ->.
  rewrite Forall_forall in Ha. apply Ha.
  apply list_elem_of_In, in_rev. by apply list_elem_of_In.
Qed.

Lemma sortPositions_unfold x rest :
  sortPositions (x :: rest) = rev (fold_left (fun acc y => rins y acc) rest [x]).
Proof.
  unfold sortPositions. cbn [length]. rewrite Nat.sub_1_r. cbn [Nat.pred].
  apply (sortLoop_rins rest [x]).
Qed.

Lemma sortPositions_perm ps : sortPositions ps ≡ₚ ps.
Proof.
  destruct ps as [|x rest]; [done|].
  rewrite sortPositions_unfold, <- Permutation_rev. apply (fold_rins_perm rest [x]).
Qed.

Lemma sortPositions_sorted ps : StronglySorted Z.le (sortPositions ps).
Proof.
  destruct ps as [|x rest]; [constructor|].
  rewrite sortPositions_unfold. apply StronglySorted_rev_flip, fold_rins_sorted.
  repeat constructor.
Qed.

(** ** The copying loop *)

Lemma listed_spec ps i : listed ps i = true <-> In i ps.
Proof.
  unfold listed. rewrite existsb_exists. split.
  - intros (x & Hx & Heq). apply Z.eqb_eq in Heq. by subst.
  - intros Hi. exists i. split; [done|]. apply Z.eqb_refl.
Qed.

Lemma listed_perm ps qs i : ps ≡ₚ qs -> listed ps i = listed qs i.
Proof.
  intros Hp. apply eq_true_iff_eq. rewrite !listed_spec.
  split; apply Permutation_in; [done|by symmetry].
Qed.

Lemma keep_unlisted_ext P Q s : forall i,
  (forall k, i <= k < i + len s -> P k = Q k) ->
  keep_unlisted i s P = keep_unlisted i s Q.
Proof.
  unfold len. induction s as [|c s IH]; intros i HPQ; simpl; [done|].
  rewrite (HPQ i) by (simpl; lia).
  rewrite (IH (i + 1)); [done|]. intros k Hk. apply HPQ. simpl. lia.
Qed.

Lemma keep_unlisted_none P s : forall i,
  (forall k, i <= k < i + len s -> P k = false) ->
  keep_unlisted i s P = s.
Proof.
  unfold len. induction s as [|c s IH]; intros i HP; simpl; [done|].
  rewrite (HP i) by (simpl; lia). f_equal.
  apply IH. intros k Hk. apply HP. simpl. lia.
Qed.

Lemma keep_unlisted_app P s1 s2 : forall i,
  keep_unlisted i (s1 ++ s2) P
  = keep_unlisted i s1 P ++ keep_unlisted (i + len s1) s2 P.
Proof.
  unfold len. induction s1 as [|c s1 IH]; intros i; simpl.
  - by rewrite Z.add_0_r.
  - rewrite IH. replace (i + 1 + Z.of_nat (length s1)) with (i + Z.pos (Pos.of_succ_nat (length s1))) by lia.
    by destruct (P i).
Qed.

Lemma slice_in_range {A} (b : list A) lo hi :
  0 <= lo <= hi -> hi <= len b ->
  slice b lo hi = Some (take (Z.to_nat (hi - lo)) (drop (Z.to_nat lo) b)).
Proof.
  intros Hlo Hhi. unfold slice.
  destruct (Z.leb_spec 0 lo); [|lia].
  destruct (Z.leb_spec lo hi); [|lia].
  destruct (Z.leb_spec hi (len b)); [done|lia].
Qed.

Lemma slice_backwards {A} (b : list A) lo hi : hi < lo -> slice b lo hi = None.
Proof.
  intros Hlt. unfold slice.
  destruct (Z.leb_spec lo hi); [lia|]. by rewrite andb_false_r.
Qed.

(** With strictly ascending positions, each at or after [prev] unless
    negative, the loop copies the unlisted suffix starting at [prev]. *)
Lemma skipLoop_spec b qs : forall prev out,
  0 <= prev <= len b ->
  StronglySorted Z.lt qs ->
  Forall (fun q => q < 0 \/ prev <= q) qs ->
  skipLoop b qs prev out
  = Some (out ++ keep_unlisted prev (drop (Z.to_nat prev) b) (listed qs)).
Proof.
  induction qs as [|p qs IH]; intros prev out Hprev Hs Hge.
  - cbn [skipLoop]. rewrite slice_in_range by lia. cbn.
    rewrite take_ge by (rewrite length_drop; unfold len in *; lia).
    by rewrite keep_unlisted_none.
  - apply StronglySorted_inv in Hs as [Hs Hlt].
    apply Forall_cons in Hge as [Hp Hge].
    assert (Hdl : len (drop (Z.to_nat prev) b) = len b - prev)
      by (unfold len in *; rewrite length_drop; lia).
    cbn [skipLoop]. destruct ((p <? 0) || (p >=? len b)) eqn:Hoob.
    + rewrite IH by done. do 2 f_equal. apply keep_unlisted_ext.
      intros k Hk. cbn. rewrite Hdl in Hk.
      destruct (Z.eqb_spec k p) as [->|]; [|done]. exfalso.
      apply orb_true_iff in Hoob as [H%Z.ltb_lt|H%Z.geb_le]; lia.
    + apply orb_false_iff in Hoob as [H0%Z.ltb_ge Hl].
      assert (p < len b) by (destruct (Z.geb_spec p (len b)); [done|lia]).
      clear Hl. destruct Hp as [?|Hp]; [lia|].
      rewrite slice_in_range by lia. cbn [mbind option_bind].
      rewrite IH; [|lia|done|].
      2:{ eapply Forall_impl; [exact Hlt|]. intros; simpl in *; lia. }
      f_equal. rewrite <- app_assoc. f_equal.
      set (n := Z.to_nat (p - prev)).
      destruct (lookup_lt_is_Some_2 b (Z.to_nat p)) as [c Hc];
        [unfold len in *; lia|].
      assert (Hsplit : drop (Z.to_nat prev) b
                = take n (drop (Z.to_nat prev) b) ++ c :: drop (Z.to_nat (p + 1)) b).
      { rewrite <- (take_drop n (drop (Z.to_nat prev) b)) at 1. f_equal.
        rewrite drop_drop. replace (Z.to_nat prev + n)%nat with (Z.to_nat p) by lia.
        rewrite (drop_S _ _ _ Hc). do 2 f_equal. lia. }
      assert (Hn : prev + len (take n (drop (Z.to_nat prev) b)) = p).
      { unfold len in *. rewrite length_take, length_drop. lia. }
      symmetry. set (fr := take n (drop (Z.to_nat prev) b)) in *.
      rewrite Hsplit, keep_unlisted_app, Hn.
      cbn [keep_unlisted listed existsb]. rewrite Z.eqb_refl. cbn [orb].
      f_equal.
      * apply keep_unlisted_none. intros k Hk. rewrite Hn in Hk.
        destruct (existsb (Z.eqb k) (p :: qs)) eqn:Hex; [|done].
        apply listed_spec in Hex as [->|Hin]; [lia|].
        rewrite Forall_forall in Hlt.
        apply list_elem_of_In, Hlt in Hin. lia.
      * apply keep_unlisted_ext. intros k Hk. unfold listed. cbn [existsb].
        destruct (Z.eqb_spec k p); [lia|done].
Qed.

Lemma StronglySorted_le_NoDup_lt (l : list Z) :
  StronglySorted Z.le l -> NoDup l -> StronglySorted Z.lt l.
Proof.
  induction 1 as [|a l Hl IH Ha]; intros Hnd; [constructor|].
  apply NoDup_cons in Hnd as [Hnotin Hnd].
  constructor; [by apply IH|].
  rewrite Forall_forall in Ha |- *. intros x Hx.
  specialize (Ha x Hx). assert (x <> a) by (by intros ->). lia.
Qed.

Lemma sliceSkipAt_nil s : sliceSkipAt s [] = Some s.
Proof. done. Qed.

Lemma sliceSkipAt_NoDup s ps :
  NoDup ps -> sliceSkipAt s ps = Some (reconstruct_spec s ps).
Proof.
  intros Hnd. unfold sliceSkipAt, reconstruct_spec.
  destruct (len ps =? 0) eqn:Hlen.
  - destruct ps; [|done]. by rewrite keep_unlisted_none.
  - rewrite skipLoop_spec.
    + cbn. f_equal. apply keep_unlisted_ext. intros k _.
      apply listed_perm, sortPositions_perm.
    + unfold len. lia.
    + apply StronglySorted_le_NoDup_lt; [apply sortPositions_sorted|].
      by rewrite sortPositions_perm.
    + apply Forall_forall. intros; lia.
Qed.

Lemma sliceSkipAt_perm s ps qs :
  ps ≡ₚ qs -> sliceSkipAt s ps = sliceSkipAt s qs.
Proof.
  intros Hp. unfold sliceSkipAt, len. rewrite (Permutation_length Hp).
  replace (sortPositions qs) with (sortPositions ps); [done|].
  apply (StronglySorted_unique Z.le); [apply sortPositions_sorted..|].
  by rewrite !sortPositions_perm.
Qed.

Lemma reconstruct_spec_in_bounds s ps :
  reconstruct_spec s ps
  = reconstruct_spec s (filter (fun p => 0 <= p < len s) ps).
Proof.
  apply keep_unlisted_ext. intros k Hk.
  apply eq_true_iff_eq. rewrite !listed_spec, <- !list_elem_of_In.
  rewrite list_elem_of_filter. intuition lia.
Qed.

(** C1. For pairwise-distinct indices, [sliceSkipAt] returns (without a
    panic) the bytes of [s], in order, whose position is not a listed index;
    the indices are used in ascending order, as the sorted rearrangement of
    the given ones; indices outside [0, len s) change nothing; an empty index
    list returns [s] itself; and the two scenarios of the specification
    evaluate as stated. *)
Theorem sliceSkipAt_removes_listed (s : gostring) (indices : list Z)
    (Hdistinct : NoDup indices) :
  sliceSkipAt s indices = Some (reconstruct_spec s indices)
  /\ (StronglySorted Z.le (sortPositions indices)
      /\ sortPositions indices ≡ₚ indices)
  /\ reconstruct_spec s indices
     = reconstruct_spec s (filter (fun p => 0 <= p < len s) indices)
  /\ sliceSkipAt s [] = Some s
  /\ sliceSkipAt (bytes "abcdef") [1; 3] = Some (bytes "acef")
  /\ sliceSkipAt (bytes "abc") [5; -1; 1] = Some (bytes "ac").
Proof.
  split_and!.
  - by apply sliceSkipAt_NoDup.
  - apply sortPositions_sorted.
  - apply sortPositions_perm.
  - apply reconstruct_spec_in_bounds.
  - apply sliceSkipAt_nil.
  - reflexivity.
  - reflexivity.
Qed.

Lemma sliceSkipAt_removes_listed_witness :
  NoDup [3; 1; 9] /\
  sliceSkipAt (bytes "abcdef") [3; 1; 9] = Some (bytes "acef").
Proof.
  assert (Hnd : NoDup [3; 1; 9]).
  { repeat (apply NoDup_cons; split); [| |apply not_elem_of_nil|apply NoDup_nil; done].
    - intros Hin. apply list_elem_of_In in Hin. simpl in Hin. lia.
    - intros Hin. apply list_elem_of_In in Hin. simpl in Hin. lia. }
  split; [exact Hnd|].
  exact (proj1 (sliceSkipAt_removes_listed (bytes "abcdef") [3; 1; 9] Hnd)).
Defined.

(** C9. The result of [sliceSkipAt], a returned string or a panic, is the
    same for every rearrangement of the index list. *)
Theorem sliceSkipAt_order_independent (s : gostring) (ps qs : list Z)
    (Hperm : ps ≡ₚ qs) :
  sliceSkipAt s ps = sliceSkipAt s qs.
Proof. by apply sliceSkipAt_perm. Qed.

Lemma sliceSkipAt_order_independent_witness :
  [4; 0; 2] ≡ₚ [0; 2; 4] /\
  sliceSkipAt (bytes "abcdef") [4; 0; 2] = sliceSkipAt (bytes "abcdef") [0; 2; 4].
Proof.
  assert (Hp : [4; 0; 2] ≡ₚ [0; 2; 4]).
  { apply (Permutation_cons_app [0; 2] [] 4). apply Permutation_refl. }
  split; [exact Hp|].
  exact (sliceSkipAt_order_independent (bytes "abcdef") [4; 0; 2] [0; 2; 4] Hp).
Defined.

(** C10 (as the code has it). A position listed twice makes the copying loop
    take [b[prev:p]] with [prev = p + 1]: on ["abc"] with positions [1, 1]
    the call panics instead of returning a string. *)
Theorem sliceSkipAt_repeated_position_panics :
  sliceSkipAt (bytes "abc") [1; 1] = None
  /\ skipLoop (bytes "abc") [1] 2 (bytes "a") = None
  /\ slice (bytes "abc") 2 1 = None.
Proof. by split_and!. Qed.

(** ** Index derivation and the manager *)

Section ManagerFacts.
Context {H W : Type} {client : NepseHTTP H} {wasm : tokenParser W} {clock : Clock}.

#[local] Arguments indicesFromSalts : simpl never.
#[local] Arguments sliceSkipAt : simpl never.
#[local] Arguments time_Unix : simpl never.
#[local] Arguments time_Sub : simpl never.
#[local] Arguments Z.quot : simpl never.

Lemma run_calls_first_failure pre f args post (p p0 p' : W) rs err :
  run_calls pre p = (inr rs, p0) ->
  (let '(a, b, c, d, e) := args in
   Call f (uint32 a) (uint32 b) (uint32 c) (uint32 d) (uint32 e) p0)
  = (inl err, p') ->
  run_calls (pre ++ (f, args) :: post) p = (inl err, p').
Proof.
  revert p rs. induction pre as [|[g [[[[a b] c] d] e]] pre IH]; intros p rs Hpre Hf.
  - simpl in Hpre. injection Hpre as <- <-.
    destruct args as [[[[a b] c] d] e]. simpl. by rewrite Hf.
  - simpl in Hpre |- *.
    destruct (Call g (uint32 a) (uint32 b) (uint32 c) (uint32 d) (uint32 e) p)
      as [[err'|x] p1]; [done|].
    destruct (run_calls pre p1) as [[err'|xs] p2] eqn:Hrun; [done|].
    injection Hpre as <- <-. by rewrite (IH p1 xs).
Qed.

Lemma indicesFromSalts_run_calls (s : salts5) (p : W) :
  indicesFromSalts s p =
  match run_calls (derivation_calls s) p with
  | (inl err, p') => (inl err, p')
  | (inr rs, p') => (inr {| access := take 5 rs; refresh := drop 5 rs |}, p')
  end.
Proof.
  destruct s as [[[[s1 s2] s3] s4] s5].
  unfold indicesFromSalts, derivation_calls, andThen, call5. cbn [run_calls].
  repeat (match goal with
          | |- context [Call ?f ?a ?b ?c ?d ?e ?q] =>
              destruct (Call f a b c d e q) as [[?|?] ?]; [reflexivity|]
          end).
  reflexivity.
Qed.

Lemma isValid_run (w : World H W) :
  isValid w =
  if is_empty (accessToken (mgr w)) || IsZero (tokenTS (mgr w))
  then (Ok false, w)
  else (Ok (time_Sub (time_Now (ticks w)) (tokenTS (mgr w)) <? maxUpdatePeriod (mgr w)),
        tick w).
Proof.
  unfold isValid, bind, load, Now, ret.
  by destruct (is_empty (accessToken (mgr w)) || IsZero (tokenTS (mgr w))).
Qed.

Lemma isValid_cases (w : World H W) :
  isValid w = (Ok true, tick w) \/
  exists w1, isValid w = (Ok false, w1) /\ (w1 = w \/ w1 = tick w).
Proof.
  rewrite isValid_run.
  destruct (is_empty (accessToken (mgr w)) || IsZero (tokenTS (mgr w))); [eauto|].
  destruct (time_Sub _ _ <? _); eauto.
Qed.

Lemma parseResponse_wraps (tr : TokenResponse) (w : World H W) err p' :
  indicesFromSalts (salts_of tr) (parser w) = (inl err, p') ->
  fst (parseResponse tr w) = Err (fmt_Errorf "wasm parse" err).
Proof.
  intros Hidx. unfold parseResponse, bind, parser_indicesFromSalts.
  fold (salts_of tr). by rewrite Hidx.
Qed.

Lemma bind_run {A B} (c : M A) (k : A -> M B) (w : World H W) :
  bind c k w = match c w with
               | (Ok a, w') => k a w'
               | (Err e, w') => (Err e, w')
               | (Panic why, w') => (Panic why, w')
               end.
Proof. reflexivity. Qed.

Lemma update_sound (w : World H W) :
  update_spec w (fst (update w)) (snd (update w)).
Proof.
  unfold update. rewrite bind_run.
  destruct (isValid_cases w) as [Hv|(w1 & Hv & Hw1)]; rewrite Hv.
  { cbn. by apply update_skipped. }
  assert (Hm : mgr w1 = mgr w) by (by destruct Hw1 as [->| ->]).
  assert (Hh : http w1 = http w) by (by destruct Hw1 as [->| ->]).
  assert (Hp : parser w1 = parser w) by (by destruct Hw1 as [->| ->]).
  assert (Hf : fetches w1 = fetches w) by (by destruct Hw1 as [->| ->]).
  assert (Hu : updates w1 = updates w) by (by destruct Hw1 as [->| ->]).
  unfold bind, http_GetTokens. rewrite Hh.
  destruct (GetTokens (http w)) as [[err|[resp|]] h'] eqn:Hget; cbn.
  - eapply update_failed; [exact Hv|done|cbn; congruence..].
  - unfold parseResponse, bind, parser_indicesFromSalts. cbn. rewrite Hp.
    fold (salts_of resp).
    destruct (indicesFromSalts (salts_of resp) (parser w)) as [[err|idx] p'] eqn:Hidx; cbn.
    { eapply update_failed; [exact Hv|done|cbn; congruence..]. }
    unfold sliceSkipAt_M.
    destruct (sliceSkipAt (tr_AccessToken resp) (access idx)) as [a|] eqn:Ha; cbn;
      [|eapply update_failed; [exact Hv|done|cbn; congruence..]].
    destruct (sliceSkipAt (tr_RefreshToken resp) (refresh idx)) as [rf|] eqn:Hrf; cbn;
      [|eapply update_failed; [exact Hv|done|cbn; congruence..]].
    destruct (ServerTime resp ÷ 1000 >? 0) eqn:Hts; cbn.
    + eapply update_stored; [exact Hv|exact Hget|exact Hidx|exact Ha|exact Hrf| |].
      * rewrite Hts. split; [reflexivity|]. by cbn.
      * cbn. by rewrite Hm, Hf, Hu.
    + eapply update_stored; [exact Hv|exact Hget|exact Hidx|exact Ha|exact Hrf| |].
      * rewrite Hts. split; [reflexivity|]. by cbn.
      * cbn. by rewrite Hm, Hf, Hu.
  - eapply update_failed; [exact Hv|done|cbn; congruence..].
Qed.

Lemma update_fetch_some (w w1 : World H W) resp h' :
  isValid w = (Ok false, w1) ->
  GetTokens (http w1) = (inr (Some resp), h') ->
  update w =
  match indicesFromSalts (salts_of resp) (parser w1) with
  | (inl err, p') =>
      (Err (fmt_Errorf "wasm parse" err),
       Build_World (mgr w1) h' p' (ticks w1) (S (fetches w1)) (updates w1))
  | (inr idx, p') =>
      match sliceSkipAt (tr_AccessToken resp) (access idx),
            sliceSkipAt (tr_RefreshToken resp) (refresh idx) with
      | Some a, Some rf =>
          let q := ServerTime resp ÷ 1000 in
          (Ok tt,
           Build_World
             {| accessToken := a; refreshToken := rf;
                tokenTS := if q >? 0 then time_Unix q else time_Now (ticks w1);
                salts := salts_of resp;
                maxUpdatePeriod := maxUpdatePeriod (mgr w1) |}
             h' p' (if q >? 0 then ticks w1 else S (ticks w1))
             (S (fetches w1)) (S (updates w1)))
      | _, _ =>
          (Panic "slice bounds out of range",
           Build_World (mgr w1) h' p' (ticks w1) (S (fetches w1)) (updates w1))
      end
  end.
Proof.
  intros Hv Hget. unfold update. rewrite bind_run, Hv.
  unfold bind at 1. unfold http_GetTokens. rewrite Hget. cbn.
  unfold parseResponse, bind, parser_indicesFromSalts. cbn.
  fold (salts_of resp).
  destruct (indicesFromSalts (salts_of resp) (parser w1)) as [[err|idx] p']; cbn;
    [done|].
  unfold sliceSkipAt_M.
  destruct (sliceSkipAt (tr_AccessToken resp) (access idx)); cbn; [|done].
  destruct (sliceSkipAt (tr_RefreshToken resp) (refresh idx)); cbn; [|done].
  by destruct (ServerTime resp ÷ 1000 >? 0).
Qed.

(** C2. [indicesFromSalts] issues the ten calls of the contract, in this
    order and with these argument permutations, each index being the
    [int32] of what the named export returned for the low 32 bits of its
    arguments: the first five results are the access indices and the last
    five the refresh indices; when a call fails after the calls before it
    succeeded, the derivation returns that call's error and no indices; and
    [parseResponse] then returns an error whose chain holds the call's error,
    leaving the credential state alone. *)
Theorem indicesFromSalts_call_contract (s1 s2 s3 s4 s5 : Z) (p : W) :
  indicesFromSalts (s1, s2, s3, s4, s5) p =
    match run_calls
            [ (cdx, (s1, s2, s3, s4, s5)); (rdx, (s1, s2, s4, s3, s5));
              (bdx, (s1, s2, s4, s3, s5)); (ndx, (s1, s2, s4, s3, s5));
              (mdx, (s1, s2, s4, s3, s5));
              (cdx, (s2, s1, s3, s5, s4)); (rdx, (s2, s1, s3, s4, s5));
              (bdx, (s2, s1, s4, s3, s5)); (ndx, (s2, s1, s4, s3, s5));
              (mdx, (s2, s1, s4, s3, s5)) ] p with
    | (inl err, p') => (inl err, p')
    | (inr rs, p') => (inr {| access := take 5 rs; refresh := drop 5 rs |}, p')
    end
  /\ (forall pre f a b c d e post rs p0 err p',
        derivation_calls (s1, s2, s3, s4, s5) = pre ++ (f, (a, b, c, d, e)) :: post ->
        run_calls pre p = (inr rs, p0) ->
        Call f (uint32 a) (uint32 b) (uint32 c) (uint32 d) (uint32 e) p0
          = (inl err, p') ->
        indicesFromSalts (s1, s2, s3, s4, s5) p = (inl err, p'))
  /\ (forall (tr : TokenResponse) (w : World H W) err p',
        salts_of tr = (s1, s2, s3, s4, s5) -> parser w = p ->
        indicesFromSalts (s1, s2, s3, s4, s5) p = (inl err, p') ->
        exists e, fst (parseResponse tr w) = Err e /\ errors_Is e err
                  /\ mgr (snd (parseResponse tr w)) = mgr w)
  /\ (forall n l o pp q a b cc d e (p1 p2 p3 p4 p5 p6 p7 p8 p9 p10 : W),
        Call cdx (uint32 s1) (uint32 s2) (uint32 s3) (uint32 s4) (uint32 s5) p
          = (inr n, p1) ->
        Call rdx (uint32 s1) (uint32 s2) (uint32 s4) (uint32 s3) (uint32 s5) p1
          = (inr l, p2) ->
        Call bdx (uint32 s1) (uint32 s2) (uint32 s4) (uint32 s3) (uint32 s5) p2
          = (inr o, p3) ->
        Call ndx (uint32 s1) (uint32 s2) (uint32 s4) (uint32 s3) (uint32 s5) p3
          = (inr pp, p4) ->
        Call mdx (uint32 s1) (uint32 s2) (uint32 s4) (uint32 s3) (uint32 s5) p4
          = (inr q, p5) ->
        Call cdx (uint32 s2) (uint32 s1) (uint32 s3) (uint32 s5) (uint32 s4) p5
          = (inr a, p6) ->
        Call rdx (uint32 s2) (uint32 s1) (uint32 s3) (uint32 s4) (uint32 s5) p6
          = (inr b, p7) ->
        Call bdx (uint32 s2) (uint32 s1) (uint32 s4) (uint32 s3) (uint32 s5) p7
          = (inr cc, p8) ->
        Call ndx (uint32 s2) (uint32 s1) (uint32 s4) (uint32 s3) (uint32 s5) p8
          = (inr d, p9) ->
        Call mdx (uint32 s2) (uint32 s1) (uint32 s4) (uint32 s3) (uint32 s5) p9
          = (inr e, p10) ->
        indicesFromSalts (s1, s2, s3, s4, s5) p
        = (inr {| access := [int32 n; int32 l; int32 o; int32 pp; int32 q];
                  refresh := [int32 a; int32 b; int32 cc; int32 d; int32 e] |},
           p10)).
Proof.
  split_and!.
  - apply (indicesFromSalts_run_calls (s1, s2, s3, s4, s5)).
  - intros pre f a b c d e post rs p0 err p' Hcalls Hpre Hcall.
    rewrite indicesFromSalts_run_calls, Hcalls.
    by rewrite (run_calls_first_failure pre f (a, b, c, d, e) post p p0 p' rs err).
  - intros tr w err p' Hs Hp Hidx. rewrite <- Hs, <- Hp in Hidx.
    exists (fmt_Errorf "wasm parse" err). split_and!.
    + by eapply parseResponse_wraps.
    + unfold errors_Is. cbn [error_chain]. apply list_elem_of_further.
      destruct err; apply list_elem_of_here.
    + unfold parseResponse, parser_indicesFromSalts. rewrite bind_run.
      fold (salts_of tr). by rewrite Hidx.
  - intros n l o pp q a b cc d e p1 p2 p3 p4 p5 p6 p7 p8 p9 p10
      H1 H2 H3 H4 H5 H6 H7 H8 H9 H10.
    unfold indicesFromSalts, andThen, call5.
    rewrite H1, H2, H3, H4, H5, H6, H7, H8, H9, H10. reflexivity.
Qed.

(** *** Freshness *)

Lemma time_Sub_lt (now t window : Z) :
  minDuration < window <= maxDuration ->
  (time_Sub now t <? window) = true <-> now - t < window.
Proof. intros Hw. rewrite Z.ltb_lt. unfold time_Sub. lia. Qed.

Lemma window_in_range : minDuration < 45 * Second <= maxDuration.
Proof. by compute. Qed.

Lemma is_empty_spec (s : gostring) : is_empty s = true <-> s = [].
Proof. by destruct s. Qed.

Lemma isValid_of_fresh (w : World H W) :
  maxUpdatePeriod (mgr w) = 45 * Second ->
  fresh (mgr w) (time_Now (ticks w)) ->
  isValid w = (Ok true, tick w).
Proof.
  intros Hmax (Hne & Hts & Hlt). rewrite isValid_run.
  destruct (is_empty (accessToken (mgr w))) eqn:He;
    [by apply is_empty_spec in He|].
  unfold IsZero. destruct (Z.eqb_spec (tokenTS (mgr w)) time_zero); [done|].
  cbn [orb]. rewrite Hmax in *.
  by rewrite (proj2 (time_Sub_lt _ _ _ window_in_range) Hlt).
Qed.

Lemma isValid_of_stale (w : World H W) :
  maxUpdatePeriod (mgr w) = 45 * Second ->
  45 * Second <= time_Now (ticks w) - tokenTS (mgr w) ->
  exists w1, isValid w = (Ok false, w1) /\ (w1 = w \/ w1 = tick w).
Proof.
  intros Hmax Hge. rewrite isValid_run.
  destruct (is_empty _ || IsZero _); [eauto|].
  destruct (time_Sub _ _ <? _) eqn:Hlt; [|eauto].
  apply time_Sub_lt in Hlt; [lia|]. rewrite Hmax. apply window_in_range.
Qed.

Lemma update_run (w : World H W) :
  exists r w', update w = (r, w') /\ update_spec w r w'.
Proof.
  exists (fst (update w)), (snd (update w)).
  split; [by destruct (update w)|apply update_sound].
Qed.

Lemma update_stale_fetches (w w1 : World H W) :
  isValid w = (Ok false, w1) -> fetches (snd (update w)) = S (fetches w).
Proof.
  intros Hv. destruct (update_run w) as (r & w' & -> & Hspec). cbn.
  destruct Hspec; [congruence|done|subst; done].
Qed.

Lemma isValid_false_world (w w1 : World H W) :
  isValid w = (Ok false, w1) -> w1 = w \/ w1 = tick w.
Proof.
  intros Hv. destruct (isValid_cases w) as [Ht|(w2 & Hf & Hw2)]; [congruence|].
  rewrite Hv in Hf. by injection Hf as ->.
Qed.

Lemma update_spec_outcome (w w' : World H W) r :
  update_spec w r w' ->
  match r with
  | Ok _ => (isValid w = (Ok true, tick w) /\ w' = tick w) \/
            (fst (isValid w) = Ok false /\ replaced_from_reply w w')
  | _ => fst (isValid w) = Ok false /\ mgr w' = mgr w /\ updates w' = updates w
  end.
Proof.
  intros [Hv|w1 r' v' Hv Hr Hm _ Hu
          |w1 resp h' idx p' a rf stamp k v' Hv Hget Hidx Ha Hrf Hstamp ->].
  - by left.
  - destruct r' as [[]|e|why]; [done|by rewrite Hv..].
  - right. split; [by rewrite Hv|].
    exists resp, h', idx, p', a, rf, stamp. split_and!; try done.
    destruct (ServerTime resp ÷ 1000 >? 0); [by destruct Hstamp|].
    destruct Hstamp as [-> ->]. exists (ticks w1). split_and!; try done.
    destruct (isValid_false_world w w1 Hv) as [->| ->]; cbn; lia.
Qed.

Lemma update_outcome (w w' : World H W) r :
  update w = (r, w') ->
  match r with
  | Ok _ => (isValid w = (Ok true, tick w) /\ w' = tick w) \/
            (fst (isValid w) = Ok false /\ replaced_from_reply w w')
  | _ => fst (isValid w) = Ok false /\ mgr w' = mgr w /\ updates w' = updates w
  end.
Proof.
  intros Hupd. apply update_spec_outcome.
  pose proof (update_sound w) as Hspec. by rewrite Hupd in Hspec.
Qed.

Lemma update_wholesale (w : World H W) : wholesale_step w (snd (update w)).
Proof.
  destruct (update w) as [r w'] eqn:Hupd. cbn.
  pose proof (update_outcome w w' r Hupd) as Hout.
  destruct r as [[]|e|why].
  - destruct Hout as [[_ ->]|[_ Hrep]]; [by left|by right].
  - left. by destruct Hout as (_ & ? & ?).
  - left. by destruct Hout as (_ & ? & ?).
Qed.

Lemma replaced_from_reply_tick_l (w w' : World H W) :
  replaced_from_reply (tick w) w' -> replaced_from_reply w w'.
Proof.
  intros (resp & h' & idx & p' & a & rf & stamp & Hget & Hidx & Ha & Hrf
          & Hstamp & Hm & Hh & Hp & Hf & Hu).
  exists resp, h', idx, p', a, rf, stamp. split_and!; try done.
  destruct (ServerTime resp ÷ 1000 >? 0); [done|].
  destruct Hstamp as (k & Hk & ? & ?). exists k. split_and!; try done.
  cbn in Hk. lia.
Qed.

Lemma wholesale_step_tick_l (w w' : World H W) :
  wholesale_step (tick w) w' -> wholesale_step w w'.
Proof.
  intros [?|Hrep]; [by left|right; by apply replaced_from_reply_tick_l].
Qed.

Lemma replaced_from_reply_updates (w w' : World H W) :
  replaced_from_reply w w' -> updates w' = S (updates w).
Proof. by intros (? & ? & ? & ? & ? & ? & ? & ? & ? & ? & ? & ? & ? & ? & ? & ? & ?). Qed.

(** An update whose validity re-check fails, and whose fetch, index
    derivation and slicing succeed, returns nil and stores what they yield. *)
Lemma update_stores (w w1 : World H W) resp h' idx p' a rf :
  isValid w = (Ok false, w1) ->
  GetTokens (http w) = (inr (Some resp), h') ->
  indicesFromSalts (salts_of resp) (parser w) = (inr idx, p') ->
  sliceSkipAt (tr_AccessToken resp) (access idx) = Some a ->
  sliceSkipAt (tr_RefreshToken resp) (refresh idx) = Some rf ->
  update w =
  (Ok tt,
   Build_World
     {| accessToken := a; refreshToken := rf;
        tokenTS := if ServerTime resp ÷ 1000 >? 0
                   then time_Unix (ServerTime resp ÷ 1000)
                   else time_Now (ticks w1);
        salts := salts_of resp;
        maxUpdatePeriod := maxUpdatePeriod (mgr w) |}
     h' p' (if ServerTime resp ÷ 1000 >? 0 then ticks w1 else S (ticks w1))
     (S (fetches w)) (S (updates w))).
Proof.
  intros Hv Hget Hidx Ha Hrf.
  assert (Hw1 : mgr w1 = mgr w /\ http w1 = http w /\ parser w1 = parser w
                /\ fetches w1 = fetches w /\ updates w1 = updates w)
    by (by destruct (isValid_false_world w w1 Hv) as [->| ->]).
  destruct Hw1 as (Hm & Hh & Hp & Hf & Hu).
  rewrite <- Hh in Hget. rewrite <- Hp in Hidx.
  rewrite (update_fetch_some w w1 resp h' Hv Hget), Hidx, Ha, Hrf.
  cbn zeta. by rewrite Hm, Hf, Hu.
Qed.

Lemma AccessToken_run (w : World H W) :
  AccessToken w =
  match isValid w with
  | (Ok true, w1) => (Ok (accessToken (mgr w1)), w1)
  | (Ok false, w1) =>
      match update w1 with
      | (Ok _, w2) =>
          if is_empty (accessToken (mgr w2))
          then (Err (errors_New "empty access token after update"), w2)
          else (Ok (accessToken (mgr w2)), w2)
      | (Err e, w2) => (Err e, w2)
      | (Panic why, w2) => (Panic why, w2)
      end
  | (Err e, w1) => (Err e, w1)
  | (Panic why, w1) => (Panic why, w1)
  end.
Proof.
  unfold AccessToken. rewrite bind_run.
  destruct (isValid w) as [[[|]|?|?] w1]; try reflexivity.
  rewrite bind_run. destruct (update w1) as [[[]|?|?] w2]; try reflexivity.
  unfold bind, load, fail, ret. by destruct (is_empty _).
Qed.

Lemma RefreshToken_run (w : World H W) :
  RefreshToken w =
  match isValid w with
  | (Ok true, w1) => (Ok (refreshToken (mgr w1)), w1)
  | (Ok false, w1) =>
      match update w1 with
      | (Ok _, w2) =>
          if is_empty (refreshToken (mgr w2))
          then (Err (errors_New "empty refresh token after update"), w2)
          else (Ok (refreshToken (mgr w2)), w2)
      | (Err e, w2) => (Err e, w2)
      | (Panic why, w2) => (Panic why, w2)
      end
  | (Err e, w1) => (Err e, w1)
  | (Panic why, w1) => (Panic why, w1)
  end.
Proof.
  unfold RefreshToken. rewrite bind_run.
  destruct (isValid w) as [[[|]|?|?] w1]; try reflexivity.
  rewrite bind_run. destruct (update w1) as [[[]|?|?] w2]; try reflexivity.
  unfold bind, load, fail, ret. by destruct (is_empty _).
Qed.

(** On the cached path nothing but the clock reading changes. *)
Lemma ForceUpdate_fresh (w : World H W) :
  maxUpdatePeriod (mgr w) = 45 * Second ->
  fresh (mgr w) (time_Now (ticks w)) ->
  ForceUpdate w = (Ok tt, tick w).
Proof.
  intros Hmax Hfresh. unfold ForceUpdate, update. rewrite bind_run.
  by rewrite (isValid_of_fresh w Hmax Hfresh).
Qed.

(** [AccessToken] never hands out the empty string as a token. *)
Lemma AccessToken_never_empty (w w' : World H W) tok :
  AccessToken w = (Ok tok, w') -> tok <> [].
Proof.
  rewrite AccessToken_run, isValid_run.
  destruct (is_empty (accessToken (mgr w))) eqn:He; cbn [orb].
  - destruct (update w) as [[[]|?|?] w2]; try done.
    destruct (is_empty (accessToken (mgr w2))) eqn:He2; [done|].
    intros [= <- <-] Habs. by rewrite Habs in He2.
  - destruct (IsZero _); cbn.
    + destruct (update w) as [[[]|?|?] w2]; try done.
      destruct (is_empty (accessToken (mgr w2))) eqn:He2; [done|].
      intros [= <- <-] Habs. by rewrite Habs in He2.
    + destruct (time_Sub _ _ <? _).
      * intros [= <- <-] Habs. cbn in Habs. by rewrite Habs in He.
      * destruct (update (tick w)) as [[[]|?|?] w2]; try done.
        destruct (is_empty (accessToken (mgr w2))) eqn:He2; [done|].
        intros [= <- <-] Habs. by rewrite Habs in He2.
Qed.

Lemma NewManager_world (httpClient : H) (k : nat) (w : World H W) :
  NewManager httpClient k = inr w ->
  mgr w = emptyManager /\ http w = httpClient /\ ticks w = k
  /\ fetches w = 0%nat /\ updates w = 0%nat.
Proof.
  unfold NewManager. destruct newTokenParser as [err|p]; [done|].
  by intros [= <-].
Qed.

Lemma isValid_empty (w : World H W) :
  accessToken (mgr w) = [] -> isValid w = (Ok false, w).
Proof. intros He. rewrite isValid_run, He. done. Qed.

(** C5. On a manager as constructed, a first [AccessToken] that returns a
    token has issued exactly one fetch. From then on, in any world with that
    credential state: while the state is fresh at the clock reading the
    call takes, [AccessToken] returns the same cached token and changes
    nothing but the count of clock readings (no fetch, no update); once the
    window of 45 s has elapsed at that reading (the clock not running
    backwards), [AccessToken] issues one more fetch. *)
Theorem AccessToken_fetches_once_per_window
    (httpClient : H) (k0 : nat) (w0 w1 : World H W) (tok : gostring)
    (Hmono : forall i j, (i <= j)%nat -> time_Now i <= time_Now j)
    (Hnew : NewManager httpClient k0 = inr w0)
    (Hfirst : AccessToken w0 = (Ok tok, w1)) :
  fetches w0 = 0%nat /\ fetches w1 = 1%nat
  /\ maxUpdatePeriod (mgr w1) = 45 * Second
  /\ (forall w, mgr w = mgr w1 ->
        fresh (mgr w) (time_Now (ticks w)) ->
        AccessToken w = (Ok tok, tick w)
        /\ fetches (tick w) = fetches w /\ updates (tick w) = updates w
        /\ mgr (tick w) = mgr w /\ http (tick w) = http w)
  /\ (forall w, mgr w = mgr w1 ->
        45 * Second <= time_Now (ticks w) - tokenTS (mgr w) ->
        fetches (snd (AccessToken w)) = S (fetches w)).
Proof.
  apply NewManager_world in Hnew as (Hm0 & _ & _ & Hf0 & _).
  assert (He0 : accessToken (mgr w0) = []) by (by rewrite Hm0).
  rewrite AccessToken_run, (isValid_empty w0 He0) in Hfirst.
  destruct (update_run w0) as (r & w' & Hupd & Hspec). rewrite Hupd in Hfirst.
  assert (Hfacts : fetches w1 = 1%nat /\ maxUpdatePeriod (mgr w1) = 45 * Second
                   /\ tok = accessToken (mgr w1)).
  { destruct Hspec as [Hv|w2 r w' Hv Hr Hm Hf Hu
                      |w2 resp h' idx p' a rf stamp k w' Hv Hget Hidx Ha Hrf Hst ->].
    - rewrite (isValid_empty w0 He0) in Hv. done.
    - destruct r as [[]|?|?]; done.
    - cbn in Hfirst. destruct (is_empty a); [done|].
      injection Hfirst as <- <-. cbn. by rewrite Hf0, Hm0. }
  destruct Hfacts as (Hf1 & Hmax & Htok).
  split_and!; [done|done|done| |].
  - intros w Hm Hfresh. rewrite <- Hm in Hmax.
    rewrite AccessToken_run, (isValid_of_fresh w Hmax Hfresh).
    cbn. by rewrite Hm, Htok.
  - intros w Hm Hstale. rewrite <- Hm in Hmax.
    rewrite AccessToken_run.
    destruct (isValid_of_stale w Hmax Hstale) as (w2 & -> & Hw2).
    assert (Hv2 : exists w3, isValid w2 = (Ok false, w3)).
    { destruct Hw2 as [->| ->].
      - destruct (isValid_of_stale w Hmax Hstale) as (w3 & ? & _). by exists w3.
      - destruct (isValid_of_stale (tick w)) as (w3 & ? & _); [done| |by exists w3].
        cbn. pose proof (Hmono (ticks w) (S (ticks w))). lia. }
    destruct Hv2 as (w3 & Hv2). pose proof (update_stale_fetches w2 w3 Hv2) as Hf.
    assert (Hfw : fetches w2 = fetches w) by (by destruct Hw2 as [->| ->]).
    rewrite Hfw in Hf.
    destruct (update w2) as [[[]|?|?] w4]; cbn in Hf |- *; [|done|done].
    destruct (is_empty (accessToken (mgr w4))); exact Hf.
Qed.

(** C7 (amended). In every world a manager can reach: while no update has
    replaced the state, the credential state is the empty one set at
    construction, so a non-empty cached access token means an update has
    completed; and every public operation leaves the credential state as it
    was or replaces all of its fields together from the one response it
    fetched. In any world, an update whose validity re-check fails and whose
    fetch, index derivation and slicing succeed returns nil and has stored
    the two reconstructed tokens, the salts and the timestamp of that
    response, keeping the window; an update that returns nil has either
    found the state valid at its re-check and only read the clock, or has
    replaced the state from the reply of its one fetch; and an update that
    does not return nil leaves the credential state as it was. *)
Theorem credential_state_replaced_wholesale (w : World H W)
    (Hreach : reachable w) :
  (updates w = 0%nat -> mgr w = emptyManager)
  /\ (accessToken (mgr w) <> [] -> (0 < updates w)%nat)
  /\ (forall o, wholesale_step w (perform o w))
  /\ (forall (v v1 : World H W) resp h' idx p' a rf,
        isValid v = (Ok false, v1) ->
        GetTokens (http v) = (inr (Some resp), h') ->
        indicesFromSalts (salts_of resp) (parser v) = (inr idx, p') ->
        sliceSkipAt (tr_AccessToken resp) (access idx) = Some a ->
        sliceSkipAt (tr_RefreshToken resp) (refresh idx) = Some rf ->
        fst (update v) = Ok tt
        /\ mgr (snd (update v))
           = {| accessToken := a; refreshToken := rf;
                tokenTS := if ServerTime resp ÷ 1000 >? 0
                           then time_Unix (ServerTime resp ÷ 1000)
                           else time_Now (ticks v1);
                salts := salts_of resp;
                maxUpdatePeriod := maxUpdatePeriod (mgr v) |}
        /\ http (snd (update v)) = h' /\ parser (snd (update v)) = p'
        /\ updates (snd (update v)) = S (updates v))
  /\ (forall (v v' : World H W) r,
        update v = (r, v') ->
        match r with
        | Ok _ => (isValid v = (Ok true, tick v) /\ v' = tick v) \/
                  (fst (isValid v) = Ok false /\ replaced_from_reply v v')
        | _ => fst (isValid v) = Ok false /\ mgr v' = mgr v
               /\ updates v' = updates v
        end).
Proof.
  assert (Hstep : forall (v : World H W) o, wholesale_step v (perform o v)).
  { intros v o.
    assert (Hupd : forall v1, v1 = v \/ v1 = tick v ->
                     wholesale_step v (snd (update v1))).
    { intros v1 [->| ->]; [|apply wholesale_step_tick_l]; apply update_wholesale. }
    destruct o; cbn [perform].
    - rewrite AccessToken_run.
      destruct (isValid_cases v) as [->|(v1 & -> & Hv1)]; [by left|].
      specialize (Hupd v1 Hv1).
      destruct (update v1) as [[[]|?|?] v2]; cbn in Hupd |- *; [|done|done].
      destruct (is_empty _); exact Hupd.
    - rewrite RefreshToken_run.
      destruct (isValid_cases v) as [->|(v1 & -> & Hv1)]; [by left|].
      specialize (Hupd v1 Hv1).
      destruct (update v1) as [[[]|?|?] v2]; cbn in Hupd |- *; [|done|done].
      destruct (is_empty _); exact Hupd.
    - apply update_wholesale. }
  assert (Hinv : updates w = 0%nat -> mgr w = emptyManager).
  { induction Hreach as [h k w Hnew|o w Hreach IH].
    - intros _. by apply NewManager_world in Hnew as (? & _).
    - intros Hz. destruct (Hstep w o) as [[Hm Hu]|Hrep].
      + rewrite Hm. apply IH. lia.
      + apply replaced_from_reply_updates in Hrep. lia. }
  split_and!; [done| |by apply Hstep| |].
  - intros Hne. destruct (updates w) eqn:Hu; [|lia].
    by rewrite (Hinv eq_refl) in Hne.
  - intros v v1 resp h' idx p' a rf Hv Hget Hidx Ha Hrf.
    by rewrite (update_stores v v1 resp h' idx p' a rf Hv Hget Hidx Ha Hrf).
  - apply update_outcome.
Qed.


End ManagerFacts.

(** ** The manager over the test double *)

Lemma stubClock_monotone (i j : nat) :
  (i <= j)%nat -> @time_Now Stub.stubClock i <= @time_Now Stub.stubClock j.
Proof. intros Hij. cbn. unfold Second. lia. Qed.

Lemma indicesFromSalts_call_contract_witness :
  @indicesFromSalts unit (Stub.parserWith (fun f => bool_decide (f = bdx)))
    (1, 2, 3, 4, 5) tt
  = (inl (Stub.trapped bdx), tt)
  /\ @indicesFromSalts unit Stub.echoParser (1, 2, 3, 4, 5) tt
     = (inr {| access := [112345; 212435; 312435; 412435; 512435];
               refresh := [121354; 221345; 321435; 421435; 521435] |}, tt).
Proof.
  split.
  - apply (proj1 (proj2 (indicesFromSalts_call_contract
                           (H := Stub.replies)
                           (wasm := Stub.parserWith (fun f => bool_decide (f = bdx)))
                           1 2 3 4 5 tt))
           [(cdx, (1, 2, 3, 4, 5)); (rdx, (1, 2, 4, 3, 5))] bdx 1 2 4 3 5
           [(ndx, (1, 2, 4, 3, 5)); (mdx, (1, 2, 4, 3, 5));
            (cdx, (2, 1, 3, 5, 4)); (rdx, (2, 1, 3, 4, 5));
            (bdx, (2, 1, 4, 3, 5)); (ndx, (2, 1, 4, 3, 5));
            (mdx, (2, 1, 4, 3, 5))]
           [1; 3] tt); reflexivity.
  - apply (proj2 (proj2 (proj2 (indicesFromSalts_call_contract
                                  (H := Stub.replies) (wasm := Stub.echoParser)
                                  1 2 3 4 5 tt)))
           112345 212435 312435 412435 512435
           121354 221345 321435 421435 521435
           tt tt tt tt tt tt tt tt tt tt); reflexivity.
Defined.

(** C3 (as the code has it). [ForceUpdate] is [update], which returns at
    its validity re-check: right after a successful update the second
    [ForceUpdate] succeeds without a fetch, the second reply stays unread and
    the credential state is the one of the first update. *)
Theorem ForceUpdate_after_update_does_not_fetch :
  let w0 := Stub.world0 [Stub.reply1; Stub.reply2] in
  let w1 := snd (Stub.runForceUpdate w0) in
  let w2 := snd (Stub.runForceUpdate w1) in
  fst (Stub.runForceUpdate w0) = Ok tt
  /\ fetches w1 = 1%nat /\ updates w1 = 1%nat
  /\ fst (Stub.runForceUpdate w1) = Ok tt
  /\ fetches w2 = 1%nat /\ updates w2 = 1%nat
  /\ http w2 = [Stub.reply2] /\ mgr w2 = mgr w1.
Proof. vm_compute. by split_and!. Qed.

(** C6 (as the code has it). The response reconstructs to a non-empty access
    token and an empty refresh token. [AccessToken] succeeds and caches
    both; [RefreshToken], called while the state is fresh, returns the empty
    refresh token with a nil error. A [RefreshToken] that ran the update
    itself reports the error, and the next one returns the empty token. *)
Theorem RefreshToken_returns_cached_empty_token :
  let w0 := Stub.world0 [Stub.reply1; Stub.reply2] in
  let w1 := snd (Stub.runAccessToken w0) in
  let w1' := snd (Stub.runRefreshToken w0) in
  fst (Stub.runAccessToken w0) = Ok (bytes "aceg")
  /\ refreshToken (mgr w1) = []
  /\ Stub.runRefreshToken w1 = (Ok [], tick w1)
  /\ fst (Stub.runRefreshToken w0)
      = Err (errors_New "empty refresh token after update")
  /\ Stub.runRefreshToken w1' = (Ok [], tick w1').
Proof. vm_compute. by split_and!. Qed.

Lemma AccessToken_fetches_once_per_window_witness :
  let w0 := Stub.world0 [Stub.reply1; Stub.reply2] in
  let w1 := snd (Stub.runAccessToken w0) in
  let late := Build_World (mgr w1) (http w1) (parser w1) 3 (fetches w1) (updates w1) in
  (forall i j, (i <= j)%nat ->
     @time_Now Stub.stubClock i <= @time_Now Stub.stubClock j)
  /\ @NewManager _ _ Stub.stubParser [Stub.reply1; Stub.reply2] 0 = inr w0
  /\ Stub.runAccessToken w0 = (Ok (bytes "aceg"), w1)
  /\ fetches w1 = 1%nat
  /\ Stub.runAccessToken w1 = (Ok (bytes "aceg"), tick w1)
  /\ fetches (snd (Stub.runAccessToken late)) = 2%nat.
Proof.
  intros w0 w1 late.
  pose proof (AccessToken_fetches_once_per_window
                (client := Stub.stubHTTP) (wasm := Stub.stubParser)
                (clock := Stub.stubClock)
                [Stub.reply1; Stub.reply2] 0%nat w0 w1 (bytes "aceg")
                stubClock_monotone eq_refl eq_refl)
    as (_ & Hf1 & _ & Hcached & Hlate).
  split_and!.
  - exact stubClock_monotone.
  - reflexivity.
  - reflexivity.
  - exact Hf1.
  - apply (Hcached w1 eq_refl). split_and!; [done|done|by vm_compute].
  - apply (Hlate late eq_refl). by vm_compute.
Defined.

(** C7 (as stated) fails: an update that succeeds on a response whose
    access token reconstructs to the empty string leaves the cached access
    token empty. *)
Lemma successful_update_may_store_empty_token :
  let w0 := Stub.world0 [inr (Some (Stub.bundle "" "xyz" 1700000000000))] in
  Stub.runForceUpdate w0
  = (Ok tt,
     Build_World
       {| accessToken := []; refreshToken := bytes "xz";
          tokenTS := time_Unix 1700000000; salts := (1, 2, 3, 4, 5);
          maxUpdatePeriod := 45 * Second |} [] tt 0 1 1)
  /\ ~ (forall w : World Stub.replies unit,
          @reachable _ _ Stub.stubHTTP Stub.stubParser Stub.stubClock w ->
          (accessToken (mgr w) = [] <-> updates w = 0%nat)).
Proof.
  intros w0. split; [reflexivity|].
  intros Hclaim.
  assert (Hreach : @reachable _ _ Stub.stubHTTP Stub.stubParser Stub.stubClock
                     (@perform _ _ Stub.stubHTTP Stub.stubParser Stub.stubClock
                        OpForceUpdate w0)).
  { apply reachable_step. by apply (reachable_new (http w0) 0%nat). }
  apply Hclaim in Hreach as [Hempty _]. by specialize (Hempty eq_refl).
Qed.

Lemma credential_state_replaced_wholesale_witness :
  let w0 := Stub.world0 [Stub.reply1; Stub.reply2] in
  @reachable _ _ Stub.stubHTTP Stub.stubParser Stub.stubClock w0
  /\ (updates w0 = 0%nat -> mgr w0 = emptyManager)
  /\ @wholesale_step _ _ Stub.stubHTTP Stub.stubParser Stub.stubClock w0
       (@perform _ _ Stub.stubHTTP Stub.stubParser Stub.stubClock OpAccessToken w0)
  /\ fst (Stub.runForceUpdate w0) = Ok tt
  /\ mgr (snd (Stub.runForceUpdate w0))
     = {| accessToken := bytes "aceg"; refreshToken := [];
          tokenTS := time_Unix 1700000000; salts := (1, 2, 3, 4, 5);
          maxUpdatePeriod := 45 * Second |}
  /\ http (snd (Stub.runForceUpdate w0)) = [Stub.reply2]
  /\ updates (snd (Stub.runForceUpdate w0)) = 1%nat
  /\ @replaced_from_reply _ _ Stub.stubHTTP Stub.stubParser Stub.stubClock w0
       (snd (Stub.runForceUpdate w0)).
Proof.
  intros w0.
  assert (Hreach : @reachable _ _ Stub.stubHTTP Stub.stubParser Stub.stubClock w0)
    by (by apply (reachable_new [Stub.reply1; Stub.reply2] 0%nat)).
  split; [exact Hreach|].
  destruct (credential_state_replaced_wholesale w0 Hreach)
    as (Hinit & _ & Hstep & Hstore & Hout).
  split; [exact Hinit|]. split; [exact (Hstep OpAccessToken)|].
  destruct (Hstore w0 w0 (Stub.bundle "abcdefgh" "" 1700000000000) [Stub.reply2]
              {| access := [1; 3; 5; 7; -1]; refresh := [1; 3; 5; 7; -1] |} tt
              (bytes "aceg") []
              eq_refl eq_refl eq_refl eq_refl eq_refl)
    as (Hok & Hm & Hh & _ & Hu).
  split; [exact Hok|]. split; [exact Hm|]. split; [exact Hh|].
  split; [exact Hu|].
  destruct (Hout w0 (snd (Stub.runForceUpdate w0)) (Ok tt) eq_refl)
    as [[Hvalid _]|[_ Hrep]]; [discriminate Hvalid|exact Hrep].
Defined.


(* ================================================================== *)
(** * Further properties of [auth/token.go] *)

(** ** [sliceSkipAt] on arbitrary index lists *)

Lemma StronglySorted_filter_keeps {A} (R : relation A) (P : A -> Prop)
    `{forall x, Decision (P x)} (l : list A) :
  StronglySorted R l -> StronglySorted R (filter P l).
Proof.
  induction 1 as [|x l Hl IH Hx]; [constructor|].
  rewrite filter_cons. destruct (decide (P x)); [|done].
  constructor; [done|]. rewrite Forall_forall in Hx |- *.
  intros y Hy. apply list_elem_of_filter in Hy as [_ Hy]. by apply Hx.
Qed.

(** Out-of-range positions never reach the slice expressions. *)
Lemma skipLoop_filter b qs : forall prev out,
  skipLoop b qs prev out
  = skipLoop b (filter (fun p => 0 <= p < len b) qs) prev out.
Proof.
  induction qs as [|p qs IH]; intros prev out; [done|].
  rewrite filter_cons. cbn [skipLoop].
  destruct (decide (0 <= p < len b)) as [Hin|Hout].
  - cbn [skipLoop].
    destruct (Z.ltb_spec p 0); [lia|]. destruct (Z.geb_spec p (len b)); [lia|].
    cbn [orb]. destruct (slice b prev p); [apply IH|done].
  - replace ((p <? 0) || (p >=? len b)) with true; [apply IH|].
    symmetry. apply orb_true_iff.
    destruct (Z.ltb_spec p 0); [by left|right].
    destruct (Z.geb_spec p (len b)); [done|lia].
Qed.

(** A position that comes again makes the loop slice backwards. *)
Lemma skipLoop_repeated b l : forall prev out,
  StronglySorted Z.le l ->
  Forall (fun q => 0 <= q < len b) l ->
  Forall (fun q => prev <= q) l ->
  0 <= prev ->
  ~ NoDup l ->
  skipLoop b l prev out = None.
Proof.
  induction l as [|p l IH]; intros prev out Hs Hin Hge Hprev Hdup.
  { destruct Hdup. constructor. }
  apply StronglySorted_inv in Hs as [Hs Hle].
  apply Forall_cons in Hin as [Hp Hin]. apply Forall_cons in Hge as [Hpp Hge].
  cbn [skipLoop].
  destruct (Z.ltb_spec p 0); [lia|]. destruct (Z.geb_spec p (len b)); [lia|].
  cbn [orb]. rewrite slice_in_range by lia. cbn [mbind option_bind].
  destruct (decide (p ∈ l)) as [Hpl|Hpl].
  - destruct l as [|q l]; [by apply not_elem_of_nil in Hpl|].
    assert (q = p) as ->.
    { apply Forall_cons in Hle as [Hpq _].
      apply StronglySorted_inv in Hs as [_ Hq]. rewrite Forall_forall in Hq.
      apply elem_of_cons in Hpl as [->|Hpl]; [done|].
      specialize (Hq p Hpl). lia. }
    cbn [skipLoop]. destruct (Z.ltb_spec p 0); [lia|].
    destruct (Z.geb_spec p (len b)); [lia|]. cbn [orb].
    by rewrite slice_backwards by lia.
  - apply IH; [done|done| |lia|].
    + rewrite Forall_forall in Hle |- *. intros q Hq.
      specialize (Hle q Hq). assert (q <> p) by (by intros ->). lia.
    + intros Hnd. apply Hdup. by apply NoDup_cons.
Qed.

Lemma in_bounds_sorted_perm (s : gostring) ps :
  filter (fun p => 0 <= p < len s) (sortPositions ps)
  ≡ₚ filter (fun p => 0 <= p < len s) ps.
Proof. by rewrite sortPositions_perm. Qed.

Lemma sliceSkipAt_reconstruct (s : gostring) (positions : list Z) :
  sliceSkipAt s positions =
  if decide (NoDup (filter (fun p => 0 <= p < len s) positions))
  then Some (reconstruct_spec s positions)
  else None.
Proof.
  unfold sliceSkipAt. destruct (len positions =? 0) eqn:Hlen.
  { destruct positions; [|done]. cbn. unfold reconstruct_spec.
    by rewrite keep_unlisted_none. }
  rewrite skipLoop_filter.
  set (l := filter (fun p => 0 <= p < len s) (sortPositions positions)).
  assert (Hperm : l ≡ₚ filter (fun p => 0 <= p < len s) positions)
    by apply in_bounds_sorted_perm.
  assert (Hs : StronglySorted Z.le l)
    by apply StronglySorted_filter_keeps, sortPositions_sorted.
  assert (Hin : Forall (fun q => 0 <= q < len s) l).
  { apply Forall_forall. intros q Hq. by apply list_elem_of_filter in Hq as [? _]. }
  destruct (decide (NoDup (filter _ positions))) as [Hnd|Hdup].
  - rewrite skipLoop_spec.
    + cbn. f_equal. apply keep_unlisted_ext. intros k Hk.
      apply eq_true_iff_eq. rewrite !listed_spec, <- !list_elem_of_In.
      rewrite Hperm, list_elem_of_filter. intuition lia.
    + unfold len. lia.
    + apply StronglySorted_le_NoDup_lt; [done|by rewrite Hperm].
    + eapply Forall_impl; [exact Hin|]. intros; simpl in *; lia.
  - apply skipLoop_repeated; [done|done| |lia|by rewrite Hperm].
    eapply Forall_impl; [exact Hin|]. intros; simpl in *; lia.
Qed.

(** X1. [sliceSkipAt] panics exactly when an in-range position is listed
    more than once; otherwise it returns the bytes at the unlisted positions.
    Repeated positions outside [0, len s) are harmless. *)
Theorem sliceSkipAt_outcome (s : gostring) (positions : list Z) :
  sliceSkipAt s positions =
  if decide (NoDup (filter (fun p => 0 <= p < len s) positions))
  then Some (reconstruct_spec s positions)
  else None.
Proof. exact (sliceSkipAt_reconstruct s positions). Qed.

Lemma keep_unlisted_sublist P s : forall i, keep_unlisted i s P `sublist_of` s.
Proof.
  induction s as [|c s IH]; intros i; simpl; [constructor|].
  destruct (P i); [apply sublist_cons|apply sublist_skip]; apply IH.
Qed.

(** X2. What [sliceSkipAt] returns is a subsequence of its input: bytes are
    only dropped, never added, changed or reordered. *)
Theorem sliceSkipAt_subsequence (s t : gostring) (positions : list Z)
    (Hret : sliceSkipAt s positions = Some t) :
  t `sublist_of` s.
Proof.
  rewrite sliceSkipAt_reconstruct in Hret.
  destruct (decide _); [|done]. injection Hret as <-.
  apply keep_unlisted_sublist.
Qed.

Lemma sliceSkipAt_subsequence_witness :
  sliceSkipAt (bytes "token") [9; 1; 9] = Some (bytes "tken")
  /\ bytes "tken" `sublist_of` bytes "token".
Proof.
  assert (Hret : sliceSkipAt (bytes "token") [9; 1; 9] = Some (bytes "tken"))
    by reflexivity.
  split; [exact Hret|].
  exact (sliceSkipAt_subsequence (bytes "token") (bytes "tken") [9; 1; 9] Hret).
Defined.

Lemma skipLoop_length b l : forall prev out,
  0 <= prev <= len b ->
  StronglySorted Z.lt l ->
  Forall (fun q => 0 <= q < len b) l ->
  Forall (fun q => prev <= q) l ->
  exists t, skipLoop b l prev out = Some t
            /\ len t = len out + (len b - prev) - len l.
Proof.
  induction l as [|p l IH]; intros prev out Hprev Hs Hin Hge.
  - cbn [skipLoop]. rewrite slice_in_range by lia. eexists. split; [done|].
    unfold len in *. rewrite length_app, length_take, length_drop. cbn. lia.
  - apply StronglySorted_inv in Hs as [Hs Hlt].
    apply Forall_cons in Hin as [Hp Hin]. apply Forall_cons in Hge as [Hpp Hge].
    cbn [skipLoop].
    destruct (Z.ltb_spec p 0); [lia|]. destruct (Z.geb_spec p (len b)); [lia|].
    cbn [orb]. rewrite slice_in_range by lia. cbn [mbind option_bind].
    destruct (IH (p + 1) (out ++ take (Z.to_nat (p - prev)) (drop (Z.to_nat prev) b)))
      as (t & Ht & Hlen); [lia|done|done| |].
    { eapply Forall_impl; [exact Hlt|]. intros; simpl in *; lia. }
    exists t. split; [done|]. rewrite Hlen.
    unfold len in *. rewrite length_app, length_take, length_drop. cbn [length]. lia.
Qed.

(** X3. When no in-range position is repeated, the result is shorter than
    the input by exactly the number of in-range positions listed; in
    particular five distinct in-range indices remove five bytes, and indices
    that all fall outside the string leave it as it is. *)
Theorem sliceSkipAt_length (s : gostring) (positions : list Z)
    (Hdistinct : NoDup (filter (fun p => 0 <= p < len s) positions)) :
  exists t, sliceSkipAt s positions = Some t
    /\ len t = len s - len (filter (fun p => 0 <= p < len s) positions)
    /\ (filter (fun p => 0 <= p < len s) positions = [] -> t = s).
Proof.
  pose proof (sliceSkipAt_reconstruct s positions) as Hout.
  destruct (decide _) as [_|]; [|done].
  exists (reconstruct_spec s positions). split; [done|]. split.
  - unfold sliceSkipAt in Hout. destruct (len positions =? 0) eqn:Hlen.
    { destruct positions; [|done]. injection Hout as <-. cbn. lia. }
    rewrite skipLoop_filter in Hout.
    destruct (skipLoop_length s
                (filter (fun p => 0 <= p < len s) (sortPositions positions)) 0 [])
      as (t & Ht & Hlt).
    + unfold len. lia.
    + apply StronglySorted_le_NoDup_lt.
      * apply StronglySorted_filter_keeps, sortPositions_sorted.
      * by rewrite in_bounds_sorted_perm.
    + apply Forall_forall. intros q Hq. by apply list_elem_of_filter in Hq as [? _].
    + apply Forall_forall. intros q Hq. apply list_elem_of_filter in Hq as [? _]. lia.
    + rewrite Ht in Hout. injection Hout as <-. rewrite Hlt.
      pose proof (Permutation_length (in_bounds_sorted_perm s positions)) as Hpl.
      unfold len in *. cbn [length]. lia.
  - intros Hnone. unfold reconstruct_spec. apply keep_unlisted_none.
    intros k Hk. destruct (listed positions k) eqn:Hl; [|done].
    apply listed_spec, list_elem_of_In in Hl.
    assert (Hk' : k ∈ filter (fun p => 0 <= p < len s) positions)
      by (apply list_elem_of_filter; split; [lia|done]).
    rewrite Hnone in Hk'. by apply not_elem_of_nil in Hk'.
Qed.

Lemma sliceSkipAt_length_witness :
  NoDup (filter (fun p => 0 <= p < len (bytes "abcdefgh")) [7; -1; 3; 40; 40; 0])
  /\ exists t, sliceSkipAt (bytes "abcdefgh") [7; -1; 3; 40; 40; 0] = Some t
               /\ len t = 5.
Proof.
  assert (Hnd : NoDup (filter (fun p => 0 <= p < len (bytes "abcdefgh"))
                         [7; -1; 3; 40; 40; 0])).
  { apply (bool_decide_unpack _). by vm_compute. }
  split; [exact Hnd|].
  destruct (sliceSkipAt_length (bytes "abcdefgh") [7; -1; 3; 40; 40; 0] Hnd)
    as (t & Ht & Hlen & _).
  exists t. split; [exact Ht|exact Hlen].
Defined.

(** ** The conversions of [call5] and the derived indices *)

(** X4. A salt in the [int32] range survives the conversions of [call5]:
    it is handed to the module as its two's-complement [uint32] and read
    back unchanged. *)
Theorem call5_conversions_round_trip (a : Z)
    (Hrange : - 2 ^ 31 <= a < 2 ^ 31) :
  int32 (uint32 a) = a
  /\ uint32 a = (if a <? 0 then a + 2 ^ 32 else a)
  /\ 0 <= uint32 a < 2 ^ 32.
Proof.
  assert (Hu : uint32 a = if a <? 0 then a + 2 ^ 32 else a).
  { unfold uint32. destruct (Z.ltb_spec a 0).
    - symmetry. apply (Z.mod_unique_pos _ _ (-1)); lia.
    - apply Z.mod_small. lia. }
  split; [|split; [done|unfold uint32; apply Z.mod_pos_bound; lia]].
  unfold int32. cbv zeta.
  rewrite (Z.mod_small (uint32 a))
    by (unfold uint32; apply Z.mod_pos_bound; lia).
  rewrite Hu.
  destruct (Z.ltb_spec a 0).
  - destruct (Z.ltb_spec (a + 2 ^ 32) (2 ^ 31)); lia.
  - destruct (Z.ltb_spec a (2 ^ 31)); lia.
Qed.

Lemma call5_conversions_round_trip_witness :
  - 2 ^ 31 <= -7 < 2 ^ 31 /\ int32 (uint32 (-7)) = -7 /\ uint32 (-7) = 4294967289.
Proof.
  assert (Hr : - 2 ^ 31 <= -7 < 2 ^ 31) by lia.
  split; [exact Hr|].
  destruct (call5_conversions_round_trip (-7) Hr) as (H1 & H2 & _).
  split; [exact H1|exact H2].
Defined.

Lemma int32_range (r : Z) : - 2 ^ 31 <= int32 r < 2 ^ 31.
Proof.
  unfold int32. pose proof (Z.mod_pos_bound r (2 ^ 32)).
  destruct (Z.ltb_spec (r mod 2 ^ 32) (2 ^ 31)); lia.
Qed.

Section ManagerMore.
Context {H W : Type} {client : NepseHTTP H} {wasm : tokenParser W} {clock : Clock}.

#[local] Arguments indicesFromSalts : simpl never.
#[local] Arguments sliceSkipAt : simpl never.
#[local] Arguments time_Unix : simpl never.
#[local] Arguments time_Sub : simpl never.
#[local] Arguments Z.quot : simpl never.

Lemma call5_range f a b c d e (p p' : W) x :
  call5 f a b c d e p = (inr x, p') -> - 2 ^ 31 <= x < 2 ^ 31.
Proof.
  unfold call5. destruct (Call _ _ _ _ _ _ _) as [[?|r] ?]; [done|].
  intros [= <- _]. apply int32_range.
Qed.

(** X5. When the derivation succeeds it yields exactly five access and five
    refresh indices, each a value of the [int32] range (so an index can be
    negative or lie beyond the token). *)
Theorem indicesFromSalts_indices_are_int32 (s : salts5) (p p' : W)
    (idx : tokenIndices)
    (Hidx : indicesFromSalts s p = (inr idx, p')) :
  length (access idx) = 5%nat /\ length (refresh idx) = 5%nat
  /\ Forall (fun i => - 2 ^ 31 <= i < 2 ^ 31) (access idx ++ refresh idx).
Proof.
  destruct s as [[[[s1 s2] s3] s4] s5].
  unfold indicesFromSalts, andThen in Hidx.
  repeat match type of Hidx with
         | context [call5 ?f ?a ?b ?c ?d ?e ?q] =>
             let E := fresh "E" in
             destruct (call5 f a b c d e q) as [[?|?] ?] eqn:E;
               [discriminate Hidx|apply call5_range in E];
               cbn beta iota in Hidx
         end.
  injection Hidx as <- _. cbn [access refresh length app].
  split; [done|split; [done|]].
  repeat (apply Forall_cons; split; [assumption|]). constructor.
Qed.

(** *** What a call returns and what it leaves behind *)

(** X6. A token returned by [AccessToken] is never empty, and it is the
    access token cached in the state the call leaves. *)
Theorem AccessToken_returns_cached_nonempty (w w' : World H W) (tok : gostring)
    (Hret : AccessToken w = (Ok tok, w')) :
  tok <> [] /\ tok = accessToken (mgr w').
Proof.
  split; [by eapply AccessToken_never_empty|].
  rewrite AccessToken_run in Hret.
  destruct (isValid w) as [[[|]|?|?] w1]; try done.
  - by injection Hret as <- <-.
  - destruct (update w1) as [[[]|?|?] w2]; try done.
    destruct (is_empty (accessToken (mgr w2))); [done|].
    by injection Hret as <- <-.
Qed.

(** X7. A [ForceUpdate] that does not return nil has issued exactly one
    fetch and has left the cached credentials as they were: a failure never
    clears or half-writes the state. *)
Theorem ForceUpdate_failure_keeps_credentials
    (w w' : World H W) (r : result unit)
    (Hrun : ForceUpdate w = (r, w'))
    (Hfail : r <> Ok tt) :
  mgr w' = mgr w /\ updates w' = updates w /\ fetches w' = S (fetches w).
Proof.
  unfold ForceUpdate in Hrun.
  destruct (update_run w) as (r2 & w2 & Hupd & Hspec).
  assert (r2 = r /\ w2 = w') as [-> ->]
    by (rewrite Hrun in Hupd; by injection Hupd).
  destruct Hspec as [|? ? ? ? ? Hm Hf Hu|]; [done|done|done].
Qed.

Lemma checked_world (w w1 : World H W) :
  w1 = w \/ w1 = tick w ->
  mgr w1 = mgr w /\ http w1 = http w /\ parser w1 = parser w
  /\ fetches w1 = fetches w /\ updates w1 = updates w
  /\ (ticks w <= ticks w1 <= S (ticks w))%nat.
Proof. intros [->| ->]; cbn; split_and!; (done || lia). Qed.

Lemma isValid_not_fresh (w : World H W) :
  maxUpdatePeriod (mgr w) = 45 * Second ->
  ~ fresh (mgr w) (time_Now (ticks w)) ->
  exists w1, isValid w = (Ok false, w1) /\ (w1 = w \/ w1 = tick w).
Proof.
  intros Hmax Hnf. rewrite isValid_run.
  destruct (is_empty (accessToken (mgr w))) eqn:He; cbn [orb]; [eauto|].
  unfold IsZero. destruct (Z.eqb_spec (tokenTS (mgr w)) time_zero); [eauto|].
  destruct (time_Sub _ _ <? _) eqn:Hlt; [|eauto].
  destruct Hnf. split_and!; [|done|].
  - intros Habs. by rewrite Habs in He.
  - apply time_Sub_lt in Hlt; [done|]. rewrite Hmax. apply window_in_range.
Qed.

Lemma not_fresh_later (m : Manager) (i j : nat) :
  (forall i j, (i <= j)%nat -> time_Now i <= time_Now j) ->
  (i <= j)%nat -> ~ fresh m (time_Now i) -> ~ fresh m (time_Now j).
Proof.
  intros Hmono Hij Hnf (Hne & Hts & Hlt). apply Hnf. split_and!; [done..|].
  specialize (Hmono i j Hij). lia.
Qed.

(** A stale state fails the validity check of the accessor and the re-check
    of [update]. *)
Lemma stale_checks (w : World H W) :
  maxUpdatePeriod (mgr w) = 45 * Second ->
  (forall i j, (i <= j)%nat -> time_Now i <= time_Now j) ->
  ~ fresh (mgr w) (time_Now (ticks w)) ->
  (exists w1, isValid w = (Ok false, w1) /\ (w1 = w \/ w1 = tick w))
  /\ (forall w1, w1 = w \/ w1 = tick w ->
        exists w2, isValid w1 = (Ok false, w2) /\ (w2 = w1 \/ w2 = tick w1)).
Proof.
  intros Hmax Hmono Hnf. split; [by apply isValid_not_fresh|].
  intros w1 [->| ->]; apply isValid_not_fresh; try done.
  cbn. eapply not_fresh_later; [done| |exact Hnf]. lia.
Qed.

Lemma update_fetch_error (w w1 : World H W) err h' :
  isValid w = (Ok false, w1) ->
  GetTokens (http w1) = (inl err, h') ->
  update w = (Err (fmt_Errorf "get token" err), after_fetch w1 h').
Proof.
  intros Hv Hget. unfold update. rewrite bind_run, Hv.
  unfold bind, http_GetTokens. by rewrite Hget.
Qed.

Lemma update_fetch_nil (w w1 : World H W) h' :
  isValid w = (Ok false, w1) ->
  GetTokens (http w1) = (inr None, h') ->
  update w = (Panic "nil pointer dereference", after_fetch w1 h').
Proof.
  intros Hv Hget. unfold update. rewrite bind_run, Hv.
  unfold bind, http_GetTokens. by rewrite Hget.
Qed.

Lemma update_ticks (w : World H W) :
  (ticks w <= ticks (snd (update w)) <= ticks w + 2)%nat.
Proof.
  destruct (isValid_cases w) as [Hv|(w1 & Hv & Hw1)].
  - unfold update. rewrite bind_run, Hv. cbn. lia.
  - pose proof (checked_world w w1 Hw1) as (_ & _ & _ & _ & _ & Ht).
    destruct (GetTokens (http w1)) as [[err|[resp|]] h'] eqn:Hget.
    + rewrite (update_fetch_error w w1 err h' Hv Hget). cbn. lia.
    + rewrite (update_fetch_some w w1 resp h' Hv Hget).
      destruct (indicesFromSalts _ _) as [[?|idx] p']; cbn; [lia|].
      destruct (sliceSkipAt _ (access idx)); cbn; [|lia].
      destruct (sliceSkipAt _ (refresh idx)); cbn; [|lia].
      destruct (_ >? 0); lia.
    + rewrite (update_fetch_nil w w1 h' Hv Hget). cbn. lia.
Qed.

Lemma update_counts (w : World H W) :
  maxUpdatePeriod (mgr (snd (update w))) = maxUpdatePeriod (mgr w)
  /\ (fetches w <= fetches (snd (update w)) <= S (fetches w))%nat
  /\ (updates w <= updates (snd (update w)))%nat
  /\ (updates (snd (update w)) - updates w
      <= fetches (snd (update w)) - fetches w)%nat
  /\ (updates (snd (update w)) <= S (updates w))%nat.
Proof.
  destruct (update_run w) as (r & w' & -> & Hspec). cbn [snd].
  destruct Hspec as [|? ? ? ? ? Hm Hf Hu|? ? ? ? ? ? ? ? ? ? ? ? ? ? ? ? ->]; cbn.
  - split_and!; (done || lia).
  - rewrite Hm, Hf, Hu. split_and!; (done || lia).
  - split_and!; (done || lia).
Qed.

(** The effect of an operation is that of at most one clock reading
    followed by at most one [update]. *)
Lemma perform_shape (o : operation) (w : World H W) :
  perform o w = tick w
  \/ exists w1, (w1 = w \/ w1 = tick w) /\ perform o w = snd (update w1).
Proof.
  destruct o; cbn [perform].
  - rewrite AccessToken_run.
    destruct (isValid_cases w) as [->|(w1 & -> & Hw1)]; [by left|right].
    exists w1. split; [done|].
    destruct (update w1) as [[[]|?|?] w2]; cbn; [|done|done].
    by destruct (is_empty _).
  - rewrite RefreshToken_run.
    destruct (isValid_cases w) as [->|(w1 & -> & Hw1)]; [by left|right].
    exists w1. split; [done|].
    destruct (update w1) as [[[]|?|?] w2]; cbn; [|done|done].
    by destruct (is_empty _).
  - right. exists w. by split; [left|].
Qed.

(** X8. One public call issues at most one fetch, replaces the credential
    state at most once, and reads the clock at most three times. *)
Theorem operation_cost (o : operation) (w : World H W) :
  (fetches w <= fetches (perform o w) <= S (fetches w))%nat
  /\ (updates w <= updates (perform o w) <= S (updates w))%nat
  /\ (ticks w <= ticks (perform o w) <= ticks w + 3)%nat.
Proof.
  destruct (perform_shape o w) as [->|(w1 & Hw1 & ->)].
  - cbn. lia.
  - pose proof (checked_world w w1 Hw1) as (_ & _ & _ & Hf & Hu & Ht).
    pose proof (update_counts w1) as (_ & Hf1 & Hu1 & _ & Hu2).
    pose proof (update_ticks w1). lia.
Qed.

Lemma reachable_window (w : World H W) :
  reachable w -> maxUpdatePeriod (mgr w) = 45 * Second.
Proof.
  induction 1 as [h k w Hnew|o w Hreach IHm].
  - by apply NewManager_world in Hnew as (-> & _).
  - destruct (perform_shape o w) as [->|(w1 & Hw1 & ->)]; [done|].
    pose proof (checked_world w w1 Hw1) as (Hm & _).
    pose proof (update_counts w1) as (Hm1 & _).
    by rewrite Hm1, Hm.
Qed.

(** X9. In every world a manager can reach, the validity window is the
    45 s set at construction, and the credential state has been replaced at
    most as often as a fetch was issued. *)
Theorem reachable_window_and_counters (w : World H W)
    (Hreach : reachable w) :
  maxUpdatePeriod (mgr w) = 45 * Second /\ (updates w <= fetches w)%nat.
Proof.
  induction Hreach as [h k w Hnew|o w Hreach [IHm IHc]].
  - apply NewManager_world in Hnew as (-> & _ & _ & -> & ->). by split.
  - destruct (perform_shape o w) as [->|(w1 & Hw1 & ->)]; [by split|].
    pose proof (checked_world w w1 Hw1) as (Hm & _ & _ & Hf & Hu & _).
    pose proof (update_counts w1) as (Hm1 & Hf1 & Hu1 & Hd & _).
    split; [by rewrite Hm1, Hm|lia].
Qed.

(** X10. With a clock that does not run backwards, a public call on a
    reachable manager fetches exactly when the cached state is not fresh at
    the reading the call takes first: a fresh state makes every operation,
    [ForceUpdate] included, a no-op apart from that reading. *)
Theorem operation_fetches_iff_stale (o : operation) (w : World H W)
    (Hreach : reachable w)
    (Hmono : forall i j, (i <= j)%nat -> time_Now i <= time_Now j) :
  (fresh (mgr w) (time_Now (ticks w)) -> perform o w = tick w)
  /\ (~ fresh (mgr w) (time_Now (ticks w)) ->
        fetches (perform o w) = S (fetches w)).
Proof.
  pose proof (reachable_window w Hreach) as Hmax.
  split.
  - intros Hfresh. pose proof (isValid_of_fresh w Hmax Hfresh) as Hv.
    destruct o; cbn [perform].
    + by rewrite AccessToken_run, Hv.
    + by rewrite RefreshToken_run, Hv.
    + by rewrite (ForceUpdate_fresh w Hmax Hfresh).
  - intros Hstale.
    destruct (stale_checks w Hmax Hmono Hstale) as ((w1 & Hv & Hw1) & Hre).
    destruct (Hre w1 Hw1) as (w2 & Hv1 & _).
    pose proof (checked_world w w1 Hw1) as (_ & _ & _ & Hf & _).
    destruct o; cbn [perform].
    + rewrite AccessToken_run, Hv.
      pose proof (update_stale_fetches w1 w2 Hv1) as Hfe.
      destruct (update w1) as [[[]|?|?] w3]; cbn in Hfe |- *; [|lia|lia].
      destruct (is_empty (accessToken (mgr w3))); cbn; lia.
    + rewrite RefreshToken_run, Hv.
      pose proof (update_stale_fetches w1 w2 Hv1) as Hfe.
      destruct (update w1) as [[[]|?|?] w3]; cbn in Hfe |- *; [|lia|lia].
      destruct (is_empty (refreshToken (mgr w3))); cbn; lia.
    + destruct (Hre w (or_introl eq_refl)) as (w3 & Hv0 & _).
      apply (update_stale_fetches w w3 Hv0).
Qed.

(** *** Outcomes of the fetch *)

(** The three public calls on a stale state, in terms of the [update] they
    run after the failed validity check. *)
Lemma stale_operations (w : World H W) :
  maxUpdatePeriod (mgr w) = 45 * Second ->
  (forall i j, (i <= j)%nat -> time_Now i <= time_Now j) ->
  ~ fresh (mgr w) (time_Now (ticks w)) ->
  exists w1 w2,
    (w1 = w \/ w1 = tick w) /\ (w2 = w1 \/ w2 = tick w1)
    /\ isValid w1 = (Ok false, w2)
    /\ AccessToken w =
       match update w1 with
       | (Ok _, w3) =>
           if is_empty (accessToken (mgr w3))
           then (Err (errors_New "empty access token after update"), w3)
           else (Ok (accessToken (mgr w3)), w3)
       | (Err e, w3) => (Err e, w3)
       | (Panic why, w3) => (Panic why, w3)
       end
    /\ RefreshToken w =
       match update w1 with
       | (Ok _, w3) =>
           if is_empty (refreshToken (mgr w3))
           then (Err (errors_New "empty refresh token after update"), w3)
           else (Ok (refreshToken (mgr w3)), w3)
       | (Err e, w3) => (Err e, w3)
       | (Panic why, w3) => (Panic why, w3)
       end.
Proof.
  intros Hmax Hmono Hstale.
  destruct (stale_checks w Hmax Hmono Hstale) as ((w1 & Hv & Hw1) & Hre).
  destruct (Hre w1 Hw1) as (w2 & Hv1 & Hw2).
  exists w1, w2. split_and!; [done|done|done| |].
  - by rewrite AccessToken_run, Hv.
  - by rewrite RefreshToken_run, Hv.
Qed.

(** X11. When the fetch fails on a stale state, [AccessToken],
    [RefreshToken] and [ForceUpdate] all return the collaborator's error
    wrapped as ["get token: %w"]; the cached credentials stay as they were
    and no retry is made (one fetch). *)
Theorem fetch_error_is_wrapped (w : World H W) (err : error) (h' : H)
    (Hreach : reachable w)
    (Hmono : forall i j, (i <= j)%nat -> time_Now i <= time_Now j)
    (Hstale : ~ fresh (mgr w) (time_Now (ticks w)))
    (Hget : GetTokens (http w) = (inl err, h')) :
  fst (AccessToken w) = Err (fmt_Errorf "get token" err)
  /\ fst (RefreshToken w) = Err (fmt_Errorf "get token" err)
  /\ fst (ForceUpdate w) = Err (fmt_Errorf "get token" err)
  /\ errors_Is (fmt_Errorf "get token" err) err
  /\ (forall o, mgr (perform o w) = mgr w /\ http (perform o w) = h'
                /\ fetches (perform o w) = S (fetches w)).
Proof.
  pose proof (reachable_window w Hreach) as Hmax.
  destruct (stale_operations w Hmax Hmono Hstale)
    as (w1 & w2 & Hw1 & Hw2 & Hv1 & HA & HR).
  destruct (stale_checks w Hmax Hmono Hstale) as (_ & Hre).
  destruct (Hre w (or_introl eq_refl)) as (w0 & Hv0 & Hw0).
  pose proof (checked_world w w1 Hw1) as (Hm1 & Hh1 & _ & Hf1 & _).
  pose proof (checked_world w1 w2 Hw2) as (Hm2 & Hh2 & _ & Hf2 & _).
  pose proof (checked_world w w0 Hw0) as (Hm0 & Hh0 & _ & Hf0 & _).
  assert (Hu1 : update w1 = (Err (fmt_Errorf "get token" err), after_fetch w2 h'))
    by (apply update_fetch_error; [done|by rewrite Hh2, Hh1]).
  assert (Hu0 : update w = (Err (fmt_Errorf "get token" err), after_fetch w0 h'))
    by (apply update_fetch_error; [done|by rewrite Hh0]).
  rewrite Hu1 in HA, HR.
  split_and!.
  - by rewrite HA.
  - by rewrite HR.
  - unfold ForceUpdate. by rewrite Hu0.
  - unfold errors_Is. cbn [error_chain]. apply list_elem_of_further.
    destruct err; apply list_elem_of_here.
  - intros []; cbn [perform].
    + rewrite HA. cbn. by rewrite Hm2, Hm1, Hf2, Hf1.
    + rewrite HR. cbn. by rewrite Hm2, Hm1, Hf2, Hf1.
    + unfold ForceUpdate. rewrite Hu0. cbn. by rewrite Hm0, Hf0.
Qed.

(** X12. A collaborator that returns a nil response together with a nil
    error makes the update panic on [*resp]; the panic reaches the caller of
    [AccessToken], [RefreshToken] and [ForceUpdate], and the cached
    credentials stay as they were. *)
Theorem nil_response_panics (w : World H W) (h' : H)
    (Hreach : reachable w)
    (Hmono : forall i j, (i <= j)%nat -> time_Now i <= time_Now j)
    (Hstale : ~ fresh (mgr w) (time_Now (ticks w)))
    (Hget : GetTokens (http w) = (inr None, h')) :
  fst (AccessToken w) = Panic "nil pointer dereference"
  /\ fst (RefreshToken w) = Panic "nil pointer dereference"
  /\ fst (ForceUpdate w) = Panic "nil pointer dereference"
  /\ (forall o, mgr (perform o w) = mgr w).
Proof.
  pose proof (reachable_window w Hreach) as Hmax.
  destruct (stale_operations w Hmax Hmono Hstale)
    as (w1 & w2 & Hw1 & Hw2 & Hv1 & HA & HR).
  destruct (stale_checks w Hmax Hmono Hstale) as (_ & Hre).
  destruct (Hre w (or_introl eq_refl)) as (w0 & Hv0 & Hw0).
  pose proof (checked_world w w1 Hw1) as (Hm1 & Hh1 & _).
  pose proof (checked_world w1 w2 Hw2) as (Hm2 & Hh2 & _).
  pose proof (checked_world w w0 Hw0) as (Hm0 & Hh0 & _).
  assert (Hu1 : update w1 = (Panic "nil pointer dereference", after_fetch w2 h'))
    by (apply update_fetch_nil; [done|by rewrite Hh2, Hh1]).
  assert (Hu0 : update w = (Panic "nil pointer dereference", after_fetch w0 h'))
    by (apply update_fetch_nil; [done|by rewrite Hh0]).
  rewrite Hu1 in HA, HR.
  split_and!.
  - by rewrite HA.
  - by rewrite HR.
  - unfold ForceUpdate. by rewrite Hu0.
  - intros []; cbn [perform].
    + rewrite HA. cbn. by rewrite Hm2, Hm1.
    + rewrite HR. cbn. by rewrite Hm2, Hm1.
    + unfold ForceUpdate. rewrite Hu0. cbn. by rewrite Hm0.
Qed.

(** X13. First use, end to end: on a manager with no cached token, a
    response whose two tokens reconstruct to [a] and [rf] makes
    [AccessToken] issue one fetch, cache [a], [rf] and the salts of the
    response, and return [a]; if [a] is empty it returns the error
    ["empty access token after update"] instead. *)
Theorem AccessToken_first_use (w : World H W) (resp : TokenResponse) (h' : H)
    (idx : tokenIndices) (p' : W) (a rf : gostring)
    (Hnone : accessToken (mgr w) = [])
    (Hget : GetTokens (http w) = (inr (Some resp), h'))
    (Hidx : indicesFromSalts (salts_of resp) (parser w) = (inr idx, p'))
    (Ha : sliceSkipAt (tr_AccessToken resp) (access idx) = Some a)
    (Hrf : sliceSkipAt (tr_RefreshToken resp) (refresh idx) = Some rf) :
  let w' := snd (AccessToken w) in
  fst (AccessToken w)
    = (if is_empty a then Err (errors_New "empty access token after update")
       else Ok a)
  /\ accessToken (mgr w') = a /\ refreshToken (mgr w') = rf
  /\ salts (mgr w') = salts_of resp
  /\ fetches w' = S (fetches w) /\ updates w' = S (updates w)
  /\ http w' = h' /\ parser w' = p'.
Proof.
  pose proof (isValid_empty w Hnone) as Hv.
  pose proof (update_fetch_some w w resp h' Hv Hget) as Hupd.
  rewrite Hidx, Ha, Hrf in Hupd. cbv zeta in Hupd.
  cbv zeta. rewrite AccessToken_run, Hv, Hupd. cbn [mgr accessToken].
  by destruct (is_empty a).
Qed.

(** X14. The panic of [sliceSkipAt] reaches the public calls: when the
    derived access or refresh indices repeat a position inside their token,
    the update panics after its fetch and the cached credentials stay as
    they were. *)
Theorem repeated_index_panics_update (w : World H W) (resp : TokenResponse)
    (h' : H) (idx : tokenIndices) (p' : W)
    (Hnone : accessToken (mgr w) = [])
    (Hget : GetTokens (http w) = (inr (Some resp), h'))
    (Hidx : indicesFromSalts (salts_of resp) (parser w) = (inr idx, p'))
    (Hdup : ~ NoDup (filter (fun p => 0 <= p < len (tr_AccessToken resp))
                       (access idx))
            \/ ~ NoDup (filter (fun p => 0 <= p < len (tr_RefreshToken resp))
                          (refresh idx))) :
  fst (AccessToken w) = Panic "slice bounds out of range"
  /\ fst (RefreshToken w) = Panic "slice bounds out of range"
  /\ fst (ForceUpdate w) = Panic "slice bounds out of range"
  /\ (forall o, mgr (perform o w) = mgr w
                /\ fetches (perform o w) = S (fetches w)).
Proof.
  pose proof (isValid_empty w Hnone) as Hv.
  pose proof (update_fetch_some w w resp h' Hv Hget) as Hupd.
  rewrite Hidx in Hupd.
  assert (Hu : update w =
            (Panic "slice bounds out of range",
             Build_World (mgr w) h' p' (ticks w) (S (fetches w)) (updates w))).
  { rewrite Hupd, !sliceSkipAt_reconstruct.
    destruct Hdup as [Hdup|Hdup].
    - destruct (decide (NoDup (filter _ (access idx)))); [done|done].
    - destruct (decide (NoDup (filter _ (access idx)))); [|done].
      destruct (decide (NoDup (filter _ (refresh idx)))); [done|done]. }
  split_and!.
  - by rewrite AccessToken_run, Hv, Hu.
  - by rewrite RefreshToken_run, Hv, Hu.
  - unfold ForceUpdate. by rewrite Hu.
  - intros []; cbn [perform].
    + by rewrite AccessToken_run, Hv, Hu.
    + by rewrite RefreshToken_run, Hv, Hu.
    + unfold ForceUpdate. by rewrite Hu.
Qed.

End ManagerMore.

Lemma indicesFromSalts_indices_are_int32_witness :
  @indicesFromSalts unit Stub.stubParser (1, 2, 3, 4, 5) tt
    = (inr {| access := [1; 3; 5; 7; -1]; refresh := [1; 3; 5; 7; -1] |}, tt)
  /\ Forall (fun i => - 2 ^ 31 <= i < 2 ^ 31)
       ([1; 3; 5; 7; -1] ++ [1; 3; 5; 7; -1]).
Proof.
  assert (Hidx : @indicesFromSalts unit Stub.stubParser (1, 2, 3, 4, 5) tt
            = (inr {| access := [1; 3; 5; 7; -1]; refresh := [1; 3; 5; 7; -1] |}, tt))
    by reflexivity.
  split; [exact Hidx|].
  exact (proj2 (proj2 (indicesFromSalts_indices_are_int32
                         (wasm := Stub.stubParser) _ _ _ _ Hidx))).
Defined.

(** ** The further properties over the test double *)

Lemma stub_world0_reachable (h : Stub.replies) :
  @reachable _ _ Stub.stubHTTP Stub.stubParser Stub.stubClock (Stub.world0 h).
Proof. by apply (reachable_new h 0%nat). Qed.

Lemma stub_world0_stale (h : Stub.replies) (now : Z) :
  ~ fresh (mgr (Stub.world0 h)) now.
Proof. by intros (Hne & _). Qed.

Lemma AccessToken_returns_cached_nonempty_witness :
  let w := Stub.world0 [Stub.reply1] in
  let w' := snd (Stub.runAccessToken w) in
  Stub.runAccessToken w = (Ok (bytes "aceg"), w')
  /\ bytes "aceg" <> [] /\ bytes "aceg" = accessToken (mgr w').
Proof.
  intros w w'.
  assert (Hret : Stub.runAccessToken w = (Ok (bytes "aceg"), w')) by reflexivity.
  split; [exact Hret|].
  exact (AccessToken_returns_cached_nonempty
           (client := Stub.stubHTTP) (wasm := Stub.stubParser)
           (clock := Stub.stubClock) w w' (bytes "aceg") Hret).
Defined.

Lemma ForceUpdate_failure_keeps_credentials_witness :
  let w := Stub.world0 [inl (collaborator_error "connection refused")] in
  let r := fst (Stub.runForceUpdate w) in
  let w' := snd (Stub.runForceUpdate w) in
  Stub.runForceUpdate w = (r, w') /\ r <> Ok tt
  /\ mgr w' = mgr w /\ updates w' = updates w /\ fetches w' = S (fetches w).
Proof.
  intros w r w'.
  assert (Hrun : Stub.runForceUpdate w = (r, w')) by reflexivity.
  assert (Hfail : r <> Ok tt) by (by vm_compute).
  split; [exact Hrun|]. split; [exact Hfail|].
  exact (ForceUpdate_failure_keeps_credentials
           (client := Stub.stubHTTP) (wasm := Stub.stubParser)
           (clock := Stub.stubClock) w w' r Hrun Hfail).
Defined.

Lemma reachable_window_and_counters_witness :
  let w := snd (Stub.runAccessToken (Stub.world0 [Stub.reply1; Stub.reply2])) in
  @reachable _ _ Stub.stubHTTP Stub.stubParser Stub.stubClock w
  /\ maxUpdatePeriod (mgr w) = 45 * Second /\ (updates w <= fetches w)%nat.
Proof.
  intros w.
  assert (Hreach : @reachable _ _ Stub.stubHTTP Stub.stubParser Stub.stubClock w).
  { apply (reachable_step (client := Stub.stubHTTP) (wasm := Stub.stubParser)
             (clock := Stub.stubClock) OpAccessToken).
    apply stub_world0_reachable. }
  split; [exact Hreach|].
  exact (reachable_window_and_counters w Hreach).
Defined.

Lemma operation_fetches_iff_stale_witness :
  let w0 := Stub.world0 [Stub.reply1; Stub.reply2] in
  let w1 := snd (Stub.runForceUpdate w0) in
  fetches w1 = 1%nat
  /\ fresh (mgr w1) (@time_Now Stub.stubClock (ticks w1))
  /\ snd (Stub.runForceUpdate w1) = tick w1.
Proof.
  intros w0 w1.
  assert (Hr0 : @reachable _ _ Stub.stubHTTP Stub.stubParser Stub.stubClock w0)
    by apply stub_world0_reachable.
  assert (Hr1 : @reachable _ _ Stub.stubHTTP Stub.stubParser Stub.stubClock w1)
    by apply (reachable_step (client := Stub.stubHTTP) (wasm := Stub.stubParser)
                (clock := Stub.stubClock) OpForceUpdate w0 Hr0).
  assert (Hfresh : fresh (mgr w1) (@time_Now Stub.stubClock (ticks w1)))
    by (split_and!; [done|done|by vm_compute]).
  split_and!.
  - exact (proj2 (operation_fetches_iff_stale
                    (client := Stub.stubHTTP) (wasm := Stub.stubParser)
                    (clock := Stub.stubClock) OpForceUpdate w0 Hr0
                    stubClock_monotone)
             (stub_world0_stale _ _)).
  - exact Hfresh.
  - exact (proj1 (operation_fetches_iff_stale
                    (client := Stub.stubHTTP) (wasm := Stub.stubParser)
                    (clock := Stub.stubClock) OpForceUpdate w1 Hr1
                    stubClock_monotone)
             Hfresh).
Defined.

Lemma fetch_error_is_wrapped_witness :
  let w := Stub.world0 [inl (collaborator_error "connection refused")] in
  fst (Stub.runAccessToken w)
    = Err (fmt_Errorf "get token" (collaborator_error "connection refused"))
  /\ mgr (snd (Stub.runAccessToken w)) = mgr w
  /\ fetches (snd (Stub.runAccessToken w)) = 1%nat.
Proof.
  intros w.
  destruct (fetch_error_is_wrapped
              (client := Stub.stubHTTP) (wasm := Stub.stubParser)
              (clock := Stub.stubClock)
              w (collaborator_error "connection refused") []
              (stub_world0_reachable _) stubClock_monotone
              (stub_world0_stale _ _) eq_refl)
    as (HA & _ & _ & _ & Hst).
  destruct (Hst OpAccessToken) as (Hm & _ & Hf).
  split; [exact HA|]. split; [exact Hm|exact Hf].
Defined.

Lemma nil_response_panics_witness :
  let w := Stub.world0 [inr None] in
  fst (Stub.runAccessToken w) = Panic "nil pointer dereference"
  /\ fst (Stub.runForceUpdate w) = Panic "nil pointer dereference".
Proof.
  intros w.
  destruct (nil_response_panics
              (client := Stub.stubHTTP) (wasm := Stub.stubParser)
              (clock := Stub.stubClock)
              w [] (stub_world0_reachable _) stubClock_monotone
              (stub_world0_stale _ _) eq_refl)
    as (HA & _ & HF & _).
  split; [exact HA|exact HF].
Defined.

Lemma AccessToken_first_use_witness :
  let w := Stub.world0 [Stub.reply2] in
  fst (Stub.runAccessToken w) = Ok (bytes "ACEGIJ")
  /\ refreshToken (mgr (snd (Stub.runAccessToken w))) = bytes "xz"
  /\ fetches (snd (Stub.runAccessToken w)) = 1%nat.
Proof.
  intros w.
  destruct (AccessToken_first_use
              (client := Stub.stubHTTP) (wasm := Stub.stubParser)
              (clock := Stub.stubClock)
              w (Stub.bundle "ABCDEFGHIJ" "xyz" 1700000030000) []
              {| access := [1; 3; 5; 7; -1]; refresh := [1; 3; 5; 7; -1] |} tt
              (bytes "ACEGIJ") (bytes "xz")
              eq_refl eq_refl eq_refl eq_refl eq_refl)
    as (Hret & _ & Hrf & _ & Hf & _).
  split; [exact Hret|]. split; [exact Hrf|exact Hf].
Defined.

Lemma repeated_index_panics_update_witness :
  let w := Stub.world0 [Stub.reply1] in
  fst (StubRepeat.runForceUpdate w) = Panic "slice bounds out of range"
  /\ mgr (snd (StubRepeat.runForceUpdate w)) = mgr w.
Proof.
  intros w.
  assert (Hdup : ~ NoDup (filter (fun p => 0 <= p < len (bytes "abcdefgh"))
                            [2; 2; 2; 2; 2])).
  { intros Hnd. apply NoDup_cons in Hnd as [Hnotin _]. apply Hnotin. left. }
  destruct (repeated_index_panics_update
              (client := Stub.stubHTTP) (wasm := StubRepeat.repeatingParser)
              (clock := Stub.stubClock)
              w (Stub.bundle "abcdefgh" "" 1700000000000) []
              {| access := [2; 2; 2; 2; 2]; refresh := [2; 2; 2; 2; 2] |} tt
              eq_refl eq_refl eq_refl (or_introl Hdup))
    as (_ & _ & HF & Hst).
  split; [exact HF|]. exact (proj1 (Hst OpForceUpdate)).
Defined.

(* ================================================================== *)
(** * The caller: [nepse/http_client.go] *)

Section ClientFacts.
Context {N : Type} {net : NetHTTP N} {errs : nepse.Errors}.
Variable config : nepse.Config.
Variable options : nepse.Options.

#[local] Abbreviation backoff := (nepse.backoff options).
#[local] Abbreviation doRequest := (nepse.doRequest options).
#[local] Abbreviation doRequest_loop := (nepse.doRequest_loop options).

Lemma doRequest_loop_spec (n : nat) : forall attempt lastErr req (c : nepse.State N),
  1 <= attempt ->
  exists k : nat,
    (k <= n)%nat
    /\ nepse.sent (snd (doRequest_loop n attempt lastErr req c))
       = nepse.sent c ++ replicate k req
    /\ nepse.slept (snd (doRequest_loop n attempt lastErr req c))
       = nepse.slept c ++ map (fun i => backoff (attempt + Z.of_nat i)) (seq 0 k)
    /\ match fst (doRequest_loop n attempt lastErr req c) with
       | (Some resp, None) => final_status resp
       | (None, Some e) => True
       | (None, None) => lastErr = None
       | (Some _, Some _) => False
       end.
Proof.
  induction n as [|n IH]; intros attempt lastErr req c Hatt.
  { exists 0%nat. cbn. rewrite !app_nil_r. split_and!; try done.
    by destruct lastErr. }
  cbn [nepse.doRequest_loop].
  destruct (Z.gtb_spec attempt 0) as [_|]; [|lia].
  unfold nepse.Do. cbn [nepse.Sleep nepse.network nepse.slept nepse.sent].
  destruct (client_Do req (nepse.network c)) as [[err|resp] n1].
  - destruct (IH (attempt + 1) (Some (nepse.NewNetworkError err)) req
                (nepse.Build_State n1 (nepse.slept c ++ [backoff attempt])
                   (nepse.sent c ++ [req])))
      as (k & Hk & Hsent & Hslept & Hres); [lia|].
    exists (S k). split; [lia|]. rewrite Hsent, Hslept. cbn.
    rewrite <- !app_assoc. cbn. split_and!.
    + done.
    + do 2 f_equal; [f_equal; lia|]. rewrite <- seq_shift, map_map.
      apply map_ext. intros i. f_equal. lia.
    + destruct (fst _) as [[r|] [e|]]; done.
  - destruct ((StatusCode resp >=? 500)
              || (StatusCode resp =? nepse.StatusTooManyRequests)) eqn:Hretry.
    + cbn zeta.
      destruct (nepse.IsRetryable
                  (nepse.MapHTTPStatusToError (StatusCode resp) (Status resp))).
      * cbn [negb].
        destruct (IH (attempt + 1)
                    (Some (nepse.MapHTTPStatusToError (StatusCode resp) (Status resp)))
                    req
                    (nepse.Close resp
                       (nepse.Build_State n1 (nepse.slept c ++ [backoff attempt])
                          (nepse.sent c ++ [req]))))
          as (k & Hk & Hsent & Hslept & Hres); [lia|].
        exists (S k). split; [lia|]. rewrite Hsent, Hslept. cbn.
        rewrite <- !app_assoc. cbn. split_and!.
        -- done.
        -- do 2 f_equal; [f_equal; lia|]. rewrite <- seq_shift, map_map.
           apply map_ext. intros i. f_equal. lia.
        -- destruct (fst _) as [[r|] [e|]]; done.
      * cbn. exists 1%nat. split; [lia|]. cbn.
        split_and!; [done| |done]. do 3 f_equal. lia.
    + cbn. exists 1%nat. split; [lia|]. cbn.
      split_and!; [done| |].
      * do 3 f_equal. lia.
      * apply orb_false_iff in Hretry as [H5 H4]. split.
        -- destruct (Z.geb_spec (StatusCode resp) 500); [done|lia].
        -- by apply Z.eqb_neq.
Qed.

(** The loop entered as [doRequest] enters it: no sleep before the first
    attempt. *)
Lemma doRequest_spec (req : Request) (c : nepse.State N) :
  exists k : nat,
    Z.of_nat k <= Z.max 0 (nepse.MaxRetries options + 1)
    /\ (0 <= nepse.MaxRetries options -> (1 <= k)%nat)
    /\ nepse.sent (snd (doRequest req c)) = nepse.sent c ++ replicate k req
    /\ nepse.slept (snd (doRequest req c))
       = nepse.slept c ++ map (fun i => backoff (Z.of_nat i)) (seq 1 (k - 1))
    /\ match fst (doRequest req c) with
       | (Some resp, None) => final_status resp
       | (None, Some e) => True
       | (None, None) =>
           nepse.MaxRetries options < 0 /\ snd (doRequest req c) = c
       | (Some _, Some _) => False
       end.
Proof.
  unfold nepse.doRequest.
  destruct (Z.to_nat (nepse.MaxRetries options + 1)) as [|n] eqn:Hn.
  { exists 0%nat. cbn. rewrite !app_nil_r. split_and!; try done; lia. }
  cbn [nepse.doRequest_loop]. cbn [Z.gtb Z.compare].
  unfold nepse.Do. change (0 + 1) with 1.
  destruct (client_Do req (nepse.network c)) as [[err|resp] n1].
  - destruct (doRequest_loop_spec n 1 (Some (nepse.NewNetworkError err)) req
                (nepse.Build_State n1 (nepse.slept c) (nepse.sent c ++ [req])))
      as (k & Hk & Hsent & Hslept & Hres); [lia|].
    exists (S k). rewrite Hsent, Hslept. cbn [nepse.sent nepse.slept].
    rewrite <- app_assoc. cbn [app replicate].
    replace (S k - 1)%nat with k by lia.
    split_and!; [lia|lia|done| |].
    + f_equal. rewrite <- seq_shift, map_map. apply map_ext. intros i. f_equal. lia.
    + destruct (fst _) as [[r|] [e|]]; done.
  - destruct ((StatusCode resp >=? 500)
              || (StatusCode resp =? nepse.StatusTooManyRequests)) eqn:Hretry.
    + cbn zeta.
      destruct (nepse.IsRetryable
                  (nepse.MapHTTPStatusToError (StatusCode resp) (Status resp))).
      * cbn [negb].
        destruct (doRequest_loop_spec n 1
                    (Some (nepse.MapHTTPStatusToError (StatusCode resp) (Status resp)))
                    req
                    (nepse.Close resp
                       (nepse.Build_State n1 (nepse.slept c) (nepse.sent c ++ [req]))))
          as (k & Hk & Hsent & Hslept & Hres); [lia|].
        exists (S k). rewrite Hsent, Hslept. cbn [nepse.sent nepse.slept nepse.Close].
        rewrite <- app_assoc. cbn [app replicate].
        replace (S k - 1)%nat with k by lia.
        split_and!; [lia|lia|done| |].
        -- f_equal. rewrite <- seq_shift, map_map. apply map_ext.
           intros i. f_equal. lia.
        -- destruct (fst _) as [[r|] [e|]]; done.
      * cbn. exists 1%nat. cbn. rewrite app_nil_r. split_and!; try done; lia.
    + cbn. exists 1%nat. cbn. rewrite app_nil_r.
      split_and!; try done; try lia.
      apply orb_false_iff in Hretry as [H5 H4]. split.
      * destruct (Z.geb_spec (StatusCode resp) 500); [done|lia].
      * by apply Z.eqb_neq.
Qed.

(** X15. [doRequest] hands the same request to [client.Do] at least once
    (when [MaxRetries >= 0]) and at most [MaxRetries + 1] times, and not at
    all when [MaxRetries] is negative; it sleeps between attempts only, the
    [i]-th retry being preceded by the back-off computed for attempt [i]. *)
Theorem doRequest_attempts (req : Request) (c : nepse.State N) :
  exists k : nat,
    Z.of_nat k <= Z.max 0 (nepse.MaxRetries options + 1)
    /\ (0 <= nepse.MaxRetries options -> (1 <= k)%nat)
    /\ nepse.sent (snd (doRequest req c)) = nepse.sent c ++ replicate k req
    /\ nepse.slept (snd (doRequest req c))
       = nepse.slept c ++ map (fun i => backoff (Z.of_nat i)) (seq 1 (k - 1)).
Proof.
  destruct (doRequest_spec req c) as (k & H1 & H2 & H3 & H4 & _).
  by exists k.
Qed.

Lemma doRequest_outcome (req : Request) (c : nepse.State N) :
  match fst (doRequest req c) with
  | (Some resp, None) =>
      StatusCode resp < 500 /\ StatusCode resp <> 429
      /\ 0 <= nepse.MaxRetries options
  | (None, Some e) => 0 <= nepse.MaxRetries options
  | (None, None) => nepse.MaxRetries options < 0 /\ snd (doRequest req c) = c
  | (Some _, Some _) => False
  end.
Proof.
  destruct (doRequest_spec req c) as (k & Hk & _ & _ & _ & Hres).
  assert (Hneg : nepse.MaxRetries options < 0 ->
                 doRequest req c = ((None, None), c)).
  { intros Hlt. unfold nepse.doRequest.
    by replace (Z.to_nat (nepse.MaxRetries options + 1)) with 0%nat by lia. }
  destruct (Z.lt_ge_cases (nepse.MaxRetries options) 0) as [Hlt|Hge].
  { rewrite (Hneg Hlt). by cbn. }
  destruct (fst (doRequest req c)) as [[resp|] [e|]]; try done.
  destruct Hres as [? ?]. by split_and!.
Qed.

(** X16. [doRequest] returns a response or an error, never both; a
    response it returns has a status below 500 other than 429; and it
    returns neither (a nil response with a nil error) exactly when
    [MaxRetries] is negative, in which case nothing was sent. *)
Theorem doRequest_result (req : Request) (c : nepse.State N) :
  match fst (doRequest req c) with
  | (Some resp, None) =>
      StatusCode resp < 500 /\ StatusCode resp <> 429
      /\ 0 <= nepse.MaxRetries options
  | (None, Some e) => 0 <= nepse.MaxRetries options
  | (None, None) => nepse.MaxRetries options < 0 /\ snd (doRequest req c) = c
  | (Some _, Some _) => False
  end.
Proof. exact (doRequest_outcome req c). Qed.

Lemma doRequest_immediate (req : Request) (c : nepse.State N) resp n' :
  0 <= nepse.MaxRetries options ->
  client_Do req (nepse.network c) = (inr resp, n') ->
  final_status resp ->
  doRequest req c
  = ((Some resp, None), nepse.Build_State n' (nepse.slept c) (nepse.sent c ++ [req])).
Proof.
  intros Hge Hdo [H5 H4]. unfold nepse.doRequest.
  destruct (Z.to_nat (nepse.MaxRetries options + 1)) as [|n] eqn:Hn; [lia|].
  cbn [nepse.doRequest_loop]. cbn [Z.gtb Z.compare]. unfold nepse.Do. rewrite Hdo.
  destruct (Z.geb_spec (StatusCode resp) 500); [lia|].
  destruct (Z.eqb_spec (StatusCode resp) nepse.StatusTooManyRequests); done.
Qed.

Lemma GetTokens_never_panics (c : nepse.State N) :
  0 <= nepse.MaxRetries options ->
  forall why, fst (nepse.GetTokens config options c) <> Panic why.
Proof.
  unfold nepse.GetTokens.
  set (url := nepse.BaseURL config ++ bytes "/api/authenticate/prove").
  set (req := nepse.setCommonHeaders config (nepse.newRequest (bytes "GET") url)).
  pose proof (doRequest_outcome req c) as Hres.
  intros Hge why. destruct (http_NewRequest _ url); [done|].
  destruct (doRequest req c) as [[[resp|] [e|]] c1]; cbn in Hres |- *; try done.
  - destruct (negb _); [done|]. by destruct (json_DecodeTokenResponse _).
  - lia.
Qed.

Lemma GetTokens_negative_MaxRetries (c : nepse.State N) :
  nepse.MaxRetries options < 0 ->
  http_NewRequest (bytes "GET")
    (nepse.BaseURL config ++ bytes "/api/authenticate/prove") = None ->
  nepse.GetTokens config options c = (Panic "nil pointer dereference", c).
Proof.
  unfold nepse.GetTokens.
  set (url := nepse.BaseURL config ++ bytes "/api/authenticate/prove").
  set (req := nepse.setCommonHeaders config (nepse.newRequest (bytes "GET") url)).
  pose proof (doRequest_outcome req c) as Hres.
  intros Hlt ->. destruct (doRequest req c) as [[[resp|] [e|]] c1];
    cbn in Hres |- *; try lia; try done.
  destruct Hres as [_ ->]. done.
Qed.

(** What [GetTokens] returns once [doRequest] has handed it a response:
    the mapped status error when the status is not 200, and otherwise what
    decoding the body of that response gives. *)
Lemma GetTokens_on_response (c c1 : nepse.State N) resp :
  http_NewRequest (bytes "GET")
    (nepse.BaseURL config ++ bytes "/api/authenticate/prove") = None ->
  doRequest
    (nepse.setCommonHeaders config
       (nepse.newRequest (bytes "GET")
          (nepse.BaseURL config ++ bytes "/api/authenticate/prove"))) c
  = ((Some resp, None), c1) ->
  nepse.GetTokens config options c =
  if negb (StatusCode resp =? 200)
  then (Err (nepse.MapHTTPStatusToError (StatusCode resp) (Status resp)),
        nepse.Close resp c1)
  else match json_DecodeTokenResponse (Body resp) with
       | inl err =>
           (Err (nepse.NewInternalError "failed to decode token response" err),
            nepse.Close resp (nepse.Close resp c1))
       | inr tr => (Ok tr, nepse.Close resp (nepse.Close resp c1))
       end.
Proof. intros Hurl Hdo. unfold nepse.GetTokens. by rewrite Hurl, Hdo. Qed.

(** X17. The client's [GetTokens] never returns a nil response with a nil
    error, and with [MaxRetries >= 0] it never panics: over this client the
    manager's nil dereference cannot happen. With a negative [MaxRetries]
    and an accepted URL it panics on the nil response of [doRequest] without
    sending anything. It returns a bundle exactly when the URL is accepted,
    [doRequest] on the request with the common headers returns a response
    with no error, that response has status 200, and the body of that
    response decodes to the bundle; the body is then closed twice. When the
    response [doRequest] returns has another status, [GetTokens] returns the
    error mapped from that status and closes the body once, whatever the
    body decodes to. *)
Theorem GetTokens_outcome (c : nepse.State N) :
  (0 <= nepse.MaxRetries options ->
     forall why, fst (nepse.GetTokens config options c) <> Panic why)
  /\ (nepse.MaxRetries options < 0 ->
      http_NewRequest (bytes "GET")
        (nepse.BaseURL config ++ bytes "/api/authenticate/prove") = None ->
      nepse.GetTokens config options c = (Panic "nil pointer dereference", c))
  /\ (forall tr,
        fst (nepse.GetTokens config options c) = Ok tr <->
        http_NewRequest (bytes "GET")
          (nepse.BaseURL config ++ bytes "/api/authenticate/prove") = None
        /\ exists resp c1,
             doRequest
               (nepse.setCommonHeaders config
                  (nepse.newRequest (bytes "GET")
                     (nepse.BaseURL config ++ bytes "/api/authenticate/prove"))) c
             = ((Some resp, None), c1)
             /\ StatusCode resp = 200
             /\ json_DecodeTokenResponse (Body resp) = inr tr
             /\ snd (nepse.GetTokens config options c)
                = nepse.Close resp (nepse.Close resp c1))
  /\ (forall resp c1,
        http_NewRequest (bytes "GET")
          (nepse.BaseURL config ++ bytes "/api/authenticate/prove") = None ->
        doRequest
          (nepse.setCommonHeaders config
             (nepse.newRequest (bytes "GET")
                (nepse.BaseURL config ++ bytes "/api/authenticate/prove"))) c
        = ((Some resp, None), c1) ->
        StatusCode resp <> 200 ->
        nepse.GetTokens config options c
        = (Err (nepse.MapHTTPStatusToError (StatusCode resp) (Status resp)),
           nepse.Close resp c1)).
Proof.
  split_and!.
  - apply GetTokens_never_panics.
  - apply GetTokens_negative_MaxRetries.
  - intros tr. split.
    + intros Hok.
      destruct (http_NewRequest (bytes "GET")
                  (nepse.BaseURL config ++ bytes "/api/authenticate/prove"))
        as [err|] eqn:Hurl.
      { unfold nepse.GetTokens in Hok. by rewrite Hurl in Hok. }
      split; [done|].
      destruct (doRequest
                  (nepse.setCommonHeaders config
                     (nepse.newRequest (bytes "GET")
                        (nepse.BaseURL config ++ bytes "/api/authenticate/prove")))
                  c) as [[[resp|] [e|]] c1] eqn:Hdo;
        try (unfold nepse.GetTokens in Hok; by rewrite Hurl, Hdo in Hok).
      rewrite (GetTokens_on_response c c1 resp Hurl Hdo) in Hok |- *.
      exists resp, c1.
      destruct (Z.eqb_spec (StatusCode resp) 200) as [H200|]; cbn in Hok |- *;
        [|done].
      destruct (json_DecodeTokenResponse (Body resp)) as [|tr']; [done|].
      cbn in Hok. injection Hok as ->. by split_and!.
    + intros (Hurl & resp & c1 & Hdo & H200 & Hdec & _).
      rewrite (GetTokens_on_response c c1 resp Hurl Hdo), H200, Hdec. done.
  - intros resp c1 Hurl Hdo Hne.
    rewrite (GetTokens_on_response c c1 resp Hurl Hdo).
    by destruct (Z.eqb_spec (StatusCode resp) 200).
Qed.

End ClientFacts.

Section APIFacts.
Context {N W T : Type} {net : NetHTTP N} {errs : nepse.Errors}
        {wasm : tokenParser W} {clock : Clock}.
Variable json_Decode : gostring -> error + T.
Variable config : nepse.Config.
Variable options : nepse.Options.

#[local] Abbreviation apiRequestWithRetry :=
  (nepse.apiRequestWithRetry json_Decode config options).
#[local] Abbreviation apiRequest := (nepse.apiRequest json_Decode config options).
#[local] Abbreviation apiRequest_body :=
  (nepse.apiRequest_body json_Decode config options).
#[local] Abbreviation client_port := (nepse.port config options).

(** Past the first retry the body makes no recursive call. *)
Lemma apiRequest_body_no_retry retry1 retry2 endpoint retryCount
    (w : World (nepse.State N) W) :
  retryCount <> 0 ->
  apiRequest_body retry1 endpoint retryCount w
  = apiRequest_body retry2 endpoint retryCount w
  /\ fst (apiRequest_body retry1 endpoint retryCount w) <> None.
Proof.
  intros Hrc. unfold nepse.apiRequest_body.
  destruct (AccessToken w) as [[token|?|?] w1];
    [|split; [reflexivity|discriminate]..].
  destruct (http_NewRequest _ _); [split; [reflexivity|discriminate]|]. cbv zeta.
  destruct (nepse.doRequest options _ (http w1)) as [[[resp|] [e|]] c];
    try (split; [reflexivity|discriminate]).
  destruct (Z.eqb_spec retryCount 0) as [|_]; [done|]. rewrite andb_false_r.
  destruct (negb _); [split; [reflexivity|discriminate]|].
  destruct (json_Decode _); split; (reflexivity || discriminate).
Qed.

(** The first level only depends on what the recursive call does at
    [retryCount = 1]. *)
Lemma apiRequest_body_first retry1 retry2 endpoint
    (w : World (nepse.State N) W) :
  (forall w3, retry1 endpoint (0 + 1) w3 = retry2 endpoint (0 + 1) w3
              /\ fst (retry1 endpoint (0 + 1) w3) <> None) ->
  apiRequest_body retry1 endpoint 0 w = apiRequest_body retry2 endpoint 0 w
  /\ fst (apiRequest_body retry1 endpoint 0 w) <> None.
Proof.
  intros Hretry. unfold nepse.apiRequest_body.
  destruct (AccessToken w) as [[token|?|?] w1];
    [|split; [reflexivity|discriminate]..].
  destruct (http_NewRequest _ _); [split; [reflexivity|discriminate]|]. cbv zeta.
  destruct (nepse.doRequest options _ (http w1)) as [[[resp|] [e|]] c];
    try (split; [reflexivity|discriminate]).
  destruct ((StatusCode resp =? nepse.StatusUnauthorized) && (0 =? 0)).
  - destruct (ForceUpdate _) as [[[]|?|?] w3];
      [|split; [reflexivity|discriminate]..].
    destruct (Hretry w3) as [<- Hsome].
    split; [reflexivity|]. by destruct (retry1 endpoint (0 + 1) w3).
  - destruct (negb _); [split; [reflexivity|discriminate]|].
    destruct (json_Decode _); split; (reflexivity || discriminate).
Qed.

(** X18. [apiRequest] terminates within two levels of
    [apiRequestWithRetry]: from [retryCount = 0] any bound of at least 2 gives
    the same outcome, and the bound is never the reason for stopping. *)
Theorem apiRequest_fuel (fuel : nat) (endpoint : gostring)
    (w : World (nepse.State N) W)
    (Hfuel : (2 <= fuel)%nat) :
  apiRequestWithRetry fuel endpoint 0 w = apiRequest endpoint w
  /\ fst (apiRequest endpoint w) <> None.
Proof.
  destruct fuel as [|[|fuel]]; [lia|lia|]. unfold nepse.apiRequest.
  change (apiRequestWithRetry (S (S fuel)) endpoint 0 w)
    with (apiRequest_body (apiRequestWithRetry (S fuel)) endpoint 0 w).
  change (apiRequestWithRetry 2 endpoint 0 w)
    with (apiRequest_body (apiRequestWithRetry 1) endpoint 0 w).
  assert (Hinner : forall w3,
            apiRequestWithRetry (S fuel) endpoint (0 + 1) w3
            = apiRequestWithRetry 1 endpoint (0 + 1) w3
            /\ fst (apiRequestWithRetry (S fuel) endpoint (0 + 1) w3) <> None).
  { intros w3. apply (apiRequest_body_no_retry _ _ endpoint (0 + 1) w3). lia. }
  destruct (apiRequest_body_first _ _ endpoint w Hinner) as [Heq Hsome].
  split; [exact Heq|]. by rewrite <- Heq.
Qed.

(** One level of [apiRequestWithRetry] on a fresh cache, when the first
    attempt of [doRequest] is answered with a status that is not retried and
    that is neither 200 nor a 401 to recover from. *)
Lemma apiRequest_body_rejected retry endpoint retryCount
    (w : World (nepse.State N) W) (resp : Response) (n1 : N) :
  maxUpdatePeriod (mgr w) = 45 * Second ->
  fresh (mgr w) (time_Now (ticks w)) ->
  0 <= nepse.MaxRetries options ->
  http_NewRequest (bytes "GET") (nepse.BaseURL config ++ endpoint) = None ->
  client_Do (api_request config endpoint (accessToken (mgr w))) (nepse.network (http w))
    = (inr resp, n1) ->
  StatusCode resp = 401 -> retryCount <> 0 ->
  apiRequest_body retry endpoint retryCount w
  = (Some (Err (nepse.MapHTTPStatusToError 401 (Status resp))),
     nepse.with_http (tick w)
       (nepse.Build_State (Body_Close resp n1) (nepse.slept (http w))
          (nepse.sent (http w)
           ++ [api_request config endpoint (accessToken (mgr w))]))).
Proof.
  intros Hmax Hfresh Hretries Hurl Hdo H401 Hrc. unfold nepse.apiRequest_body.
  rewrite (AccessToken_run w), (isValid_of_fresh w Hmax Hfresh).
  change (mgr (tick w)) with (mgr w). rewrite Hurl. cbv zeta.
  fold (api_request config endpoint (accessToken (mgr w))).
  change (http (tick w)) with (http w).
  rewrite (doRequest_immediate options _ (http w) resp n1 Hretries Hdo);
    [|unfold final_status, nepse.StatusTooManyRequests; lia].
  rewrite H401. destruct (Z.eqb_spec retryCount 0) as [|_]; [done|].
  rewrite andb_false_r. reflexivity.
Qed.

(** X19. The retry after a 401 while the cached token is fresh: [ForceUpdate]
    fetches nothing, so the second request is the first one again, with the
    same token, and a second 401 is returned as the error of the call. The
    credential state and the fetch count are as before the call. *)
Theorem apiRequest_retry_reuses_fresh_token (endpoint : gostring)
    (w : World (nepse.State N) W) (resp1 resp2 : Response) (n1 n2 : N)
    (Hmax : maxUpdatePeriod (mgr w) = 45 * Second)
    (Hfresh0 : fresh (mgr w) (time_Now (ticks w)))
    (Hfresh1 : fresh (mgr w) (time_Now (S (ticks w))))
    (Hfresh2 : fresh (mgr w) (time_Now (S (S (ticks w)))))
    (Hretries : 0 <= nepse.MaxRetries options)
    (Hurl : http_NewRequest (bytes "GET") (nepse.BaseURL config ++ endpoint) = None)
    (Hdo1 : client_Do (api_request config endpoint (accessToken (mgr w)))
              (nepse.network (http w)) = (inr resp1, n1))
    (H401 : StatusCode resp1 = 401)
    (Hdo2 : client_Do (api_request config endpoint (accessToken (mgr w))) n1
            = (inr resp2, n2))
    (H401' : StatusCode resp2 = 401) :
  fst (apiRequest endpoint w)
    = Some (Err (nepse.MapHTTPStatusToError 401 (Status resp2)))
  /\ nepse.sent (http (snd (apiRequest endpoint w)))
     = nepse.sent (http w)
       ++ [api_request config endpoint (accessToken (mgr w));
           api_request config endpoint (accessToken (mgr w))]
  /\ nepse.slept (http (snd (apiRequest endpoint w))) = nepse.slept (http w)
  /\ mgr (snd (apiRequest endpoint w)) = mgr w
  /\ fetches (snd (apiRequest endpoint w)) = fetches w
  /\ updates (snd (apiRequest endpoint w)) = updates w.
Proof.
  set (req := api_request config endpoint (accessToken (mgr w))) in *.
  set (w2 := nepse.with_http (tick w)
               (nepse.Build_State n1 (nepse.slept (http w))
                  (nepse.sent (http w) ++ [req]))).
  assert (Hsecond :
    apiRequestWithRetry 1 endpoint (0 + 1) (tick w2)
    = (Some (Err (nepse.MapHTTPStatusToError 401 (Status resp2))),
       nepse.with_http (tick (tick w2))
         (nepse.Build_State (Body_Close resp2 n2) (nepse.slept (http w))
            (nepse.sent (http w) ++ [req] ++ [req])))).
  { cbn [nepse.apiRequestWithRetry].
    rewrite (apiRequest_body_rejected _ endpoint (0 + 1) (tick w2) resp2 n2
               Hmax Hfresh2 Hretries Hurl Hdo2 H401'); [|lia].
    cbn. by rewrite <- app_assoc. }
  unfold nepse.apiRequest.
  change (apiRequestWithRetry 2 endpoint 0 w)
    with (apiRequest_body (apiRequestWithRetry 1) endpoint 0 w).
  unfold nepse.apiRequest_body.
  rewrite (AccessToken_run w), (isValid_of_fresh w Hmax Hfresh0).
  change (mgr (tick w)) with (mgr w). rewrite Hurl. cbv zeta.
  fold (api_request config endpoint (accessToken (mgr w))). fold req.
  change (http (tick w)) with (http w).
  rewrite (doRequest_immediate options req (http w) resp1 n1 Hretries Hdo1);
    [|unfold final_status, nepse.StatusTooManyRequests; lia].
  rewrite H401. fold w2.
  change ((401 =? nepse.StatusUnauthorized) && (0 =? 0)) with true. cbv iota.
  rewrite (ForceUpdate_fresh w2 Hmax Hfresh1), Hsecond.
  cbn. by split_and!.
Qed.

(** X20. A client configured with a negative [MaxRetries] cannot obtain a
    token: [doRequest] returns a nil response with a nil error, the client's
    [GetTokens] dereferences it, and the panic comes out of [AccessToken]
    and of [apiRequest], without a request having been sent. *)
Theorem negative_MaxRetries_panics (endpoint : gostring)
    (w : World (nepse.State N) W)
    (Hneg : nepse.MaxRetries options < 0)
    (Hnone : accessToken (mgr w) = [])
    (Hurl : http_NewRequest (bytes "GET")
              (nepse.BaseURL config ++ bytes "/api/authenticate/prove") = None) :
  fst (AccessToken (client := client_port) w) = Panic "nil pointer dereference"
  /\ fst (apiRequest endpoint w) = Some (Panic "nil pointer dereference")
  /\ nepse.sent (http (snd (apiRequest endpoint w))) = nepse.sent (http w)
  /\ mgr (snd (apiRequest endpoint w)) = mgr w.
Proof.
  pose proof (GetTokens_negative_MaxRetries config options (http w) Hneg Hurl)
    as Hget.
  assert (Hport : GetTokens (NepseHTTP := client_port) (http w) = (inr None, http w)).
  { cbn. by rewrite Hget. }
  pose proof (update_fetch_nil (client := client_port) w w (http w)
                (isValid_empty w Hnone) Hport) as Hupd.
  assert (HA : AccessToken (client := client_port) w
               = (Panic "nil pointer dereference", after_fetch w (http w))).
  { by rewrite AccessToken_run, (isValid_empty w Hnone), Hupd. }
  split; [by rewrite HA|].
  unfold nepse.apiRequest.
  change (apiRequestWithRetry 2 endpoint 0 w)
    with (apiRequest_body (apiRequestWithRetry 1) endpoint 0 w).
  unfold nepse.apiRequest_body. rewrite HA. by cbn.
Qed.

End APIFacts.

(** ** The client over the test doubles *)

Lemma doRequest_attempts_witness :
  let c := nepse.Build_State
             [StubNet.answer 503 "503 Service Unavailable" "";
              StubNet.answer 429 "429 Too Many Requests" "";
              StubNet.answer 200 "200 OK" "bundle"] [] [] in
  let req := nepse.newRequest (bytes "GET") (bytes "https://example.test/") in
  let c' := snd (@nepse.doRequest _ StubNet.stubNet StubNet.stubErrors
                   (StubNet.options 2) req c) in
  nepse.sent c' = [req; req; req]
  /\ nepse.slept c' = [Second; 2 * Second]
  /\ exists k : nat,
       Z.of_nat k <= Z.max 0 (2 + 1) /\ (0 <= 2 -> (1 <= k)%nat)
       /\ nepse.sent c' = nepse.sent c ++ replicate k req.
Proof.
  intros c req c'. split; [reflexivity|]. split; [reflexivity|].
  destruct (doRequest_attempts (net := StubNet.stubNet) (errs := StubNet.stubErrors)
              (StubNet.options 2) req c) as (k & Hk & Hone & Hsent & _).
  exists k. split; [exact Hk|]. split; [exact Hone|exact Hsent].
Defined.

Lemma GetTokens_outcome_witness :
  let c := nepse.Build_State [StubNet.answer 200 "200 OK" "bundle"] [] [] in
  let d := nepse.Build_State [StubNet.answer 404 "404 Not Found" "bundle"] [] [] in
  @nepse.GetTokens _ StubNet.stubNet StubNet.stubErrors StubNet.config
    (StubNet.options (-1)) c
  = (Panic "nil pointer dereference", c)
  /\ (forall why,
        fst (@nepse.GetTokens _ StubNet.stubNet StubNet.stubErrors StubNet.config
               (StubNet.options 0) c) <> Panic why)
  /\ fst (@nepse.GetTokens _ StubNet.stubNet StubNet.stubErrors StubNet.config
            (StubNet.options 0) c)
     = Ok (Stub.bundle "abcdefgh" "xyz" 1700000000000)
  /\ fst (@nepse.GetTokens _ StubNet.stubNet StubNet.stubErrors StubNet.config
            (StubNet.options 0) d)
     = Err (collaborator_error "404 Not Found").
Proof.
  intros c d. split_and!.
  - apply (proj1 (proj2 (GetTokens_outcome (net := StubNet.stubNet)
                           (errs := StubNet.stubErrors)
                           StubNet.config (StubNet.options (-1)) c)));
      [by cbn|reflexivity].
  - apply (proj1 (GetTokens_outcome (net := StubNet.stubNet)
                    (errs := StubNet.stubErrors)
                    StubNet.config (StubNet.options 0) c)). by cbn.
  - apply (proj1 (proj2 (proj2 (GetTokens_outcome (net := StubNet.stubNet)
                                  (errs := StubNet.stubErrors)
                                  StubNet.config (StubNet.options 0) c)))).
    split; [reflexivity|].
    eexists _, _. split_and!; reflexivity.
  - rewrite (proj2 (proj2 (proj2 (GetTokens_outcome (net := StubNet.stubNet)
                                    (errs := StubNet.stubErrors)
                                    StubNet.config (StubNet.options 0) d)))
               _ _ eq_refl eq_refl); [reflexivity|by cbn].
Defined.

Lemma apiRequest_fuel_witness :
  let w := StubNet.cached [StubNet.answer 200 "200 OK" "payload"] in
  (2 <= 5)%nat
  /\ StubNet.runApiRequest 5 "/api/nots/market-summary" w
     = StubNet.runApiRequest 2 "/api/nots/market-summary" w
  /\ fst (StubNet.runApiRequest 2 "/api/nots/market-summary" w)
     = Some (Ok (bytes "payload")).
Proof.
  intros w. assert (Hfuel : (2 <= 5)%nat) by lia.
  split; [exact Hfuel|]. split; [|reflexivity].
  exact (proj1 (apiRequest_fuel (net := StubNet.stubNet) (errs := StubNet.stubErrors)
                  (wasm := Stub.stubParser) (clock := Stub.stubClock)
                  StubNet.decodeWord StubNet.config (StubNet.options 0)
                  5 (bytes "/api/nots/market-summary") w Hfuel)).
Defined.

Lemma apiRequest_retry_reuses_fresh_token_witness :
  let r401 := {| StatusCode := 401; Status := bytes "401 Unauthorized"; Body := [] |} in
  let w := StubNet.cached [inr r401; inr r401] in
  fst (StubNet.runApiRequest 2 "/api/nots/market-summary" w)
    = Some (Err (collaborator_error "401 Unauthorized"))
  /\ length (nepse.sent (http (snd (StubNet.runApiRequest 2
                                     "/api/nots/market-summary" w)))) = 2%nat
  /\ fetches (snd (StubNet.runApiRequest 2 "/api/nots/market-summary" w)) = 1%nat.
Proof.
  intros r401 w.
  assert (Hf : forall k, (k <= 2)%nat ->
                 fresh (mgr w) (@time_Now Stub.stubClock k)).
  { intros k Hk. split_and!; [done|done|]. cbn. unfold time_Unix, Second. lia. }
  destruct (apiRequest_retry_reuses_fresh_token
              (net := StubNet.stubNet) (errs := StubNet.stubErrors)
              (wasm := Stub.stubParser) (clock := Stub.stubClock)
              StubNet.decodeWord StubNet.config (StubNet.options 0)
              (bytes "/api/nots/market-summary") w r401 r401 [inr r401] []
              eq_refl (Hf 0%nat ltac:(lia)) (Hf 1%nat ltac:(lia))
              (Hf 2%nat ltac:(lia)) ltac:(cbn; lia) eq_refl eq_refl eq_refl
              eq_refl eq_refl)
    as (Hret & Hsent & _ & _ & Hfe & _).
  split; [exact Hret|]. split; [|exact Hfe].
  exact (f_equal length Hsent).
Defined.

Lemma negative_MaxRetries_panics_witness :
  let w := Build_World emptyManager
             (nepse.Build_State [StubNet.answer 200 "200 OK" "bundle"] [] [])
             tt 0 0 0 in
  -1 < 0
  /\ fst (@nepse.apiRequest _ _ _ StubNet.stubNet StubNet.stubErrors
            Stub.stubParser Stub.stubClock StubNet.decodeWord StubNet.config
            (StubNet.options (-1)) (bytes "/api/nots/market-summary") w)
     = Some (Panic "nil pointer dereference").
Proof.
  intros w. assert (Hneg : -1 < 0) by lia. split; [exact Hneg|].
  exact (proj1 (proj2 (negative_MaxRetries_panics
                         (net := StubNet.stubNet) (errs := StubNet.stubErrors)
                         (wasm := Stub.stubParser) (clock := Stub.stubClock)
                         StubNet.decodeWord StubNet.config (StubNet.options (-1))
                         (bytes "/api/nots/market-summary") w
                         Hneg eq_refl eq_refl))).
Defined.

(** ** The headers of an authenticated request *)

Section HeaderFacts.
Context {N : Type} {net : NetHTTP N}.
Variable config : nepse.Config.






End HeaderFacts.

